(** * Matrix rain SVG generator: layout and animation synthesis

    A shallow embedding of [generate_matrix_svg.py] and the properties its
    specification states about it.

    Conventions of the embedding:
    - Python [int] is [Z]; Python [float] is the kernel's binary64 [float]
      (IEEE 754 round-to-nearest-even, as CPython computes);
    - Python exceptions are the [Raise] results of the [result] monad;
    - a [dict] with string keys that is read by key is a [gmap string _];
      a [dict] whose insertion order reaches the output (XML attributes)
      is an association list;
    - [list] is [list]; indexing goes through [py_index], which raises
      [IndexError] exactly when Python does. *)

From stdpp Require Import gmap strings list fin_maps sorting.
From Stdlib Require Import Floats ZArith Znumtheory Lia Ascii.

Set Warnings "-inexact-float,-register-all".
Set Default Proof Using "Type".

Open Scope Z_scope.

(** ** Exceptions and the result monad *)

Inductive exn : Type :=
  | IndexError
  | KeyError
  | ValueError
  | ZeroDivisionError
  | OverflowError
  | FuelExhausted.

Inductive result (A : Type) : Type :=
  | Ok (a : A)
  | Raise (e : exn).

Arguments Ok {A} a.
Arguments Raise {A} e.

#[global] Instance result_ret : MRet result := λ A a, Ok a.

#[global] Instance result_bind : MBind result :=
  λ A B f r, match r with Ok a => f a | Raise e => Raise e end.

Definition is_ok {A} (r : result A) : bool :=
  match r with Ok _ => true | Raise _ => false end.

(** ** Python built-ins on integers and lists *)

Definition py_len {A} (l : list A) : Z := Z.of_nat (length l).

(** [l[i]]: a negative index counts from the end. *)
Definition py_index {A} (l : list A) (i : Z) : result A :=
  let j := if i <? 0 then i + py_len l else i in
  if j <? 0 then Raise IndexError
  else match l !! Z.to_nat j with
       | Some a => Ok a
       | None => Raise IndexError
       end.

(** [a % b] on integers: the sign of the result follows the divisor, which is
    [Z.modulo]. *)
Definition py_mod (a b : Z) : result Z :=
  if b =? 0 then Raise ZeroDivisionError else Ok (a mod b).

(** [a // b] on integers is floor division, which is [Z.div]. *)
Definition py_floordiv (a b : Z) : result Z :=
  if b =? 0 then Raise ZeroDivisionError else Ok (a / b).

(** [l[:n]] for [n > 0]. *)
Definition py_slice_to {A} (l : list A) (n : Z) : list A :=
  take (Z.to_nat n) l.

(** [[f(i) for i in range(n)]] with a fallible body. *)
Fixpoint list_comp {A B} (f : A → result B) (l : list A) : result (list B) :=
  match l with
  | [] => Ok []
  | a :: l' =>
      b ← f a;
      bs ← list_comp f l';
      Ok (b :: bs)
  end.

Definition py_range (n : Z) : list Z := seqZ 0 n.

(** ** Glyph tables *)

Definition glyph : Type := string * Z.

Definition extra_glyph_cycle : list glyph :=
  [ ("ß", 19); ("ø", 20); ("Σ", 22); ("ñ", 18); ("#", 19); ("ξ", 18);
    ("Þ", 21); ("¡", 19); ("ψ", 21); ("Ł", 20); ("¿", 19); ("K", 21);
    ("κ", 20); ("Ϟ", 22); ("2", 21); ("0", 21); ("Ω", 22) ].

Definition K2_GLYPH : glyph := ("K2", 22).
Definition KTWO_GLYPH : glyph := ("ktwo", 20).
Definition ASSISTANT_GLYPH : glyph := ("∑AI", 20).
Definition SIGNATURE_GLYPHS : list glyph := [K2_GLYPH; KTWO_GLYPH].

(** ** The glyph sequence generator *)

(** Lines 610-617: the extension cycle with its signature insertions.
    [insert(0, g)] is a cons. *)
Definition extended_cycle (column_seed : Z) : list glyph :=
  let extended_cycle := extra_glyph_cycle in
  let extended_cycle :=
    if column_seed mod 11 =? 0 then ASSISTANT_GLYPH :: extended_cycle
    else extended_cycle in
  if column_seed mod 5 =? 0 then K2_GLYPH :: extended_cycle
  else if column_seed mod 7 =? 0 then KTWO_GLYPH :: extended_cycle
  else extended_cycle.

(** Lines 619-621: the rotation. *)
Definition rotated_cycle (column_seed : Z) (extended_cycle : list glyph)
  : result (Z * list glyph) :=
  let cycle_len := py_len extended_cycle in
  rotation ← py_mod (column_seed * 3) cycle_len;
  rotated ← list_comp
    (λ i, k ← py_mod (rotation + i) cycle_len; py_index extended_cycle k)
    (py_range cycle_len);
  Ok (cycle_len, rotated).

(** Lines 623-626: the [while] loop.  The fuel bounds the number of
    iterations; [generate_glyph_sequence_total] shows the fuel given below
    is never exhausted. *)
Fixpoint extend_glyphs (fuel : nat) (rotated_cycle : list glyph)
    (cycle_len target_count : Z) (glyphs : list glyph) (cycle_idx : Z)
  : result (list glyph) :=
  if py_len glyphs <? target_count then
    match fuel with
    | O => Raise FuelExhausted
    | S fuel' =>
        k ← py_mod cycle_idx cycle_len;
        g ← py_index rotated_cycle k;
        extend_glyphs fuel' rotated_cycle cycle_len target_count
          (glyphs ++ [g]) (cycle_idx + 1)
    end
  else Ok glyphs.

Definition generate_glyph_sequence (column_seed : Z) (base_glyphs : list glyph)
    (target_count : Z) : result (list glyph) :=
  if target_count <=? 0 then Ok []
  else
    let glyphs := py_slice_to base_glyphs target_count in
    if py_len glyphs =? target_count then Ok glyphs
    else
      '(cycle_len, rotated) ← rotated_cycle column_seed (extended_cycle column_seed);
      extend_glyphs (Z.to_nat target_count) rotated cycle_len target_count glyphs 0.

(** ** Python floats *)

(** The least integer whose conversion overflows: the midpoint between the
    largest double and [2^1024], which rounds up to [2^1024]. *)
Definition FLOAT_OVERFLOW : Z := Eval vm_compute in 2 ^ 1024 - 2 ^ 970.

(** [float(n)] for an [int], also the implicit conversion of an [int] operand
    in mixed arithmetic: the nearest binary64 value, ties to even.  CPython
    raises [OverflowError] when the rounded value would exceed the largest
    double, that is from [2^1024 - 2^970] on. *)
Definition float_of_Z (n : Z) : result float :=
  let a := Z.abs n in
  if FLOAT_OVERFLOW <=? a then Raise OverflowError
  else
    let f :=
      if a <? 2 ^ 63 then of_uint63 (Uint63.of_Z a)
      else SF2Prim (binary_normalize prec emax a 0 false) in
    Ok (if n <? 0 then (- f)%float else f).

(** [a / b] on floats. *)
Definition py_fdiv (a b : float) : result float :=
  if (b =? 0)%float then Raise ZeroDivisionError else Ok (a / b)%float.

(** [a / b] on two [int]s.  CPython rounds the exact quotient once; for
    operands below [2^53], as all operands in this program are, that is the
    quotient of the two exact conversions. *)
Definition py_truediv (a b : Z) : result float :=
  if b =? 0 then Raise ZeroDivisionError
  else fa ← float_of_Z a; fb ← float_of_Z b; Ok (fa / fb)%float.

(** [max(a, b)] and [min(a, b)]: the first argument wins ties, and a
    comparison with NaN is false. *)
Definition py_fmax (a b : float) : float := if (a <? b)%float then b else a.
Definition py_fmin (a b : float) : float := if (b <? a)%float then b else a.

(** [min(xs)] and [max(xs)] over a list; [ValueError] on the empty list. *)
Definition py_min_list (xs : list float) : result float :=
  match xs with
  | [] => Raise ValueError
  | x :: xs' => Ok (foldl py_fmin x xs')
  end.

Definition py_max_list (xs : list float) : result float :=
  match xs with
  | [] => Raise ValueError
  | x :: xs' => Ok (foldl py_fmax x xs')
  end.

(** The exact integer nearest to [m * 2^e], ties to even, for [m >= 0]. *)
Definition round_half_even_scaled (m e : Z) : Z :=
  if 0 <=? e then m * 2 ^ e
  else
    let d := 2 ^ (- e) in
    let q := m / d in
    let r := m mod d in
    if 2 * r <? d then q
    else if d <? 2 * r then q + 1
    else if Z.even q then q else q + 1.

(** [round(x)] with one argument: an [int], ties to even. *)
Definition py_round (x : float) : result Z :=
  match Prim2SF x with
  | S754_nan => Raise ValueError
  | S754_infinity _ => Raise OverflowError
  | S754_zero _ => Ok 0
  | S754_finite s m e =>
      let n := round_half_even_scaled (Z.pos m) e in
      Ok (if s then - n else n)
  end.

(** [x % 1.0].  CPython computes [fmod(x, 1.0)], adds the divisor when the
    remainder is non-zero and negative, and returns [+0.0] for a zero
    remainder. [fmod] is exact. *)
Definition py_fmod_one (x : float) : float :=
  match Prim2SF x with
  | S754_nan | S754_infinity _ => nan
  | S754_zero _ => 0%float
  | S754_finite s m e =>
      if 0 <=? e then 0%float
      else
        let r := Z.pos m mod 2 ^ (- e) in
        if r =? 0 then 0%float
        else
          let f := Z.ldexp (of_uint63 (Uint63.of_Z r)) e in
          if s then (- f + 1)%float else f
  end.

(** ** Strings *)

Definition digit_string (d : Z) : string :=
  String (Ascii.ascii_of_nat (Z.to_nat (48 + d))) "".

Fixpoint decimal_digits (fuel : nat) (n : Z) (acc : string) : string :=
  match fuel with
  | O => acc
  | S fuel' =>
      let acc' := (digit_string (n mod 10) +:+ acc)%string in
      if n <? 10 then acc' else decimal_digits fuel' (n / 10) acc'
  end.

(** The decimal numeral of [n >= 0]. *)
Definition decimal (n : Z) : string :=
  decimal_digits (S (Z.to_nat (Z.log2 n))) n "".

(** [f"{value:.2f}"]: the exact binary value rounded to two decimals, ties
    to even. *)
Definition format_2f (value : float) : string :=
  match Prim2SF value with
  | S754_nan => "nan"
  | S754_infinity s => if s then "-inf" else "inf"
  | S754_zero s => if s then "-0.00" else "0.00"
  | S754_finite s m e =>
      let n := round_half_even_scaled (Z.pos m * 100) e in
      let frac := n mod 100 in
      ((if s then "-" else "") +:+ decimal (n / 100) +:+ "." +:+
       digit_string (frac / 10) +:+ digit_string (frac mod 10))%string
  end.

Fixpoint string_rev_acc (s acc : string) : string :=
  match s with
  | EmptyString => acc
  | String c s' => string_rev_acc s' (String c acc)
  end.

Definition string_rev (s : string) : string := string_rev_acc s "".

(** [text.rstrip(c)] for a one-character [c]. *)
Fixpoint lstrip_char (c : ascii) (s : string) : string :=
  match s with
  | String c' s' => if Ascii.eqb c c' then lstrip_char c s' else s
  | EmptyString => EmptyString
  end.

Definition rstrip_char (c : ascii) (s : string) : string :=
  string_rev (lstrip_char c (string_rev s)).

Definition ends_with (suffix s : string) : bool :=
  String.prefix (string_rev suffix) (string_rev s).

(** [text[:-n]] *)
Definition drop_last (n : nat) (s : string) : string :=
  String.substring 0 (String.length s - n) s.

Definition fmt_num (value : float) : string :=
  let text := format_2f value in
  if ends_with "00" text then drop_last 3 text
  else rstrip_char "." (rstrip_char "0" text).

(** [fmt_num] applied to an [int]: the format converts it to a float. *)
Definition fmt_num_int (value : Z) : result string :=
  f ← float_of_Z value; Ok (fmt_num f).

(** [s.split(sep)] for a one-character separator. *)
Fixpoint split_acc (sep : ascii) (s cur : string) : list string :=
  match s with
  | EmptyString => [string_rev cur]
  | String c s' =>
      if Ascii.eqb c sep then string_rev cur :: split_acc sep s' ""
      else split_acc sep s' (String c cur)
  end.

Definition py_split (sep : ascii) (s : string) : list string :=
  split_acc sep s "".

(** [sep.join(parts)] *)
Fixpoint py_join (sep : string) (parts : list string) : string :=
  match parts with
  | [] => ""
  | [p] => p
  | p :: ps => (p +:+ sep +:+ py_join sep ps)%string
  end.

Definition digit_value (c : ascii) : option Z :=
  let n := Z.of_nat (Ascii.nat_of_ascii c) in
  if (48 <=? n) && (n <=? 57) then Some (n - 48) else None.

(** Reads [digits] as a numeral, returning its value and its length. *)
Fixpoint read_digits (s : string) (acc : Z) (len : nat) : option (Z * nat) :=
  match s with
  | EmptyString => Some (acc, len)
  | String c s' =>
      match digit_value c with
      | Some d => read_digits s' (10 * acc + d) (S len)
      | None => None
      end
  end.

(** [float(text)] for the numerals of the tables: an optional sign, digits,
    and an optional fraction.  With at most 15 significant digits the
    quotient below is the correctly rounded value CPython returns; any other
    text is reported as [ValueError]. *)
Definition py_float (text : string) : result float :=
  let '(neg, body) :=
    match text with
    | String "-" s => (true, s)
    | String "+" s => (false, s)
    | _ => (false, text)
    end in
  match py_split "." body with
  | [int_part] =>
      match read_digits int_part 0 0 with
      | Some (n, S _) => f ← float_of_Z n; Ok (if neg then (- f)%float else f)
      | _ => Raise ValueError
      end
  | [int_part; frac_part] =>
      match read_digits int_part 0 0, read_digits frac_part 0 0 with
      | Some (n, li), Some (m, lf) =>
          if ((li + lf =? 0) || (15 <? li + lf))%nat then Raise ValueError
          else
            num ← float_of_Z (n * 10 ^ Z.of_nat lf + m);
            den ← float_of_Z (10 ^ Z.of_nat lf);
            Ok (if neg then (- (num / den))%float else (num / den)%float)
      | _, _ => Raise ValueError
      end
  | _ => Raise ValueError
  end.

(** ** Module constants *)

Definition VERTICAL_SPEED_FACTOR : float := 1.45.

Definition COLUMN_WAVE_GROUP : Z := 6.
Definition COLUMN_PHASE_STEP : float := 0.45.
Definition COLUMN_SECONDARY_FACTOR : float := 0.18.
Definition COLUMN_RANDOM_JITTER : float := 0.16.
Definition MICRO_PHASE_SCALE : float := 0.6.

Definition BASE_CANVAS_WIDTH : float := 500.
Definition EDGE_MARGIN : float := 0.
Definition MIN_SPAN_WIDTH : float := BASE_CANVAS_WIDTH - 2 * EDGE_MARGIN.
Definition COLUMN_BASE_SPACING : float := 42.

Definition NICE_FEATURE_STEPS : list (string * string) :=
  [ ("disable_font_size_animation", "Disable subtle per-glyph font-size pulsation.");
    ("disable_micro_jitter", "Disable the small additive transform jitters per glyph.");
    ("disable_per_glyph_opacity", "Disable per-glyph opacity pulsing.");
    ("disable_fill_opacity_pulse", "Disable fill-opacity shimmer on each glyph.");
    ("disable_trail_filter", "Remove the blur-based trail filter.");
    ("disable_lightning", "Remove the lightning overlay group.") ].

Definition MAX_NICE_LEVEL : Z := py_len NICE_FEATURE_STEPS.

(** ** The quality-dial resolver *)

(** [enumerate(l, start)] *)
Definition py_enumerate {A} (start : Z) (l : list A) : list (Z * A) :=
  zip (seqZ start (py_len l)) l.

Definition resolve_nice_flags (requested_level : Z) : Z * gmap string bool :=
  let level := Z.max 0 (Z.min requested_level MAX_NICE_LEVEL) in
  let flags : gmap string bool :=
    foldl (λ flags step, <[step.1 := false]> flags) ∅ NICE_FEATURE_STEPS in
  let flags :=
    foldl (λ flags entry,
             let '(idx, (name, _description)) := entry in
             if idx <=? level then <[name := true]> flags else flags)
          flags (py_enumerate 1 NICE_FEATURE_STEPS) in
  (level, flags).

(** [nice_flags[name]] *)
Definition flag (nice_flags : gmap string bool) (name : string) : result bool :=
  match nice_flags !! name with
  | Some b => Ok b
  | None => Raise KeyError
  end.

(** The features a flag map disables. *)
Definition disabled_set (nice_flags : gmap string bool) : gset string :=
  dom (filter (λ kv, kv.2 = true) nice_flags).

(** ** Patterns and column templates *)

Record pattern : Type := Pattern {
  pat_fill_values : string;
  pat_fill_dur : float;
  pat_fill_begin : float;
  pat_transform_values : string;
  pat_transform_dur : float;
  pat_transform_begin : float;
  pat_size_dur : float;
  pat_size_begin : float;
  pat_size_high : float;
  pat_size_low : float
}.

(** A column dictionary.  The tables give [x] as an [int]; it is overwritten
    with a float before it is read. *)
Record column : Type := Column {
  col_x : float;
  col_translate_values : string;
  col_translate_dur : float;
  col_translate_begin : float;
  col_opacity_values : string;
  col_opacity_dur : float;
  col_opacity_begin : float;
  col_glyphs : list glyph
}.

Definition set_x (c : column) (x : float) : column :=
  Column x (col_translate_values c) (col_translate_dur c) (col_translate_begin c)
         (col_opacity_values c) (col_opacity_dur c) (col_opacity_begin c)
         (col_glyphs c).

Definition set_glyphs (c : column) (glyphs : list glyph) : column :=
  Column (col_x c) (col_translate_values c) (col_translate_dur c)
         (col_translate_begin c) (col_opacity_values c) (col_opacity_dur c)
         (col_opacity_begin c) glyphs.

Definition set_timing (c : column)
    (translate_begin opacity_begin translate_dur opacity_dur : float) : column :=
  Column (col_x c) (col_translate_values c) translate_dur translate_begin
         (col_opacity_values c) opacity_dur opacity_begin (col_glyphs c).

Definition patterns : list pattern :=
  [ Pattern "0.3;0.95;0.3" 2.6 (-0.9) "0,-8;0,4;0,-5;0,-8" 3.4 (-0.5) 4 (-1.1) 1 (-1);
    Pattern "0.25;0.88;0.28;0.25" 2.2 (-1.6) "0,-6;0,2;0,-4;0,-6" 2.9 (-0.7) 3.3 (-0.8) 1.2 (-0.8);
    Pattern "0.2;0.92;0.2" 3.1 (-0.4) "0,-10;0,5;0,-3;0,-10" 3.6 (-1.2) 3.7 (-1.4) 0.8 (-1.2);
    Pattern "0.34;0.9;0.34" 2.4 (-1.2) "0,-7;0,3;0,-6;0,-7" 3 (-0.3) 3.5 (-1) 1 (-0.5);
    Pattern "0.18;0.82;0.24;0.18" 4.8 (-2.1) "0,-5;0,6;0,-7;0,-5" 6.3 (-1.8) 4.9 (-2.2) 1.6 (-1.3);
    Pattern "0.4;1;0.5;0.4" 1.7 (-0.65) "0,-14;0,3;0,-9;0,-14" 2.1 (-0.95) 2.4 (-0.7) 0.6 (-1.8);
    Pattern "0.22;0.9;0.3;0.22" 5.6 (-2.8) "0,-6;0,5;0,-8;0,-6" 6.8 (-2.4) 5.4 (-2.6) 1.8 (-1.5);
    Pattern "0.32;0.96;0.4;0.32" 1.4 (-0.35) "0,-18;0,8;0,-11;0,-18" 1.9 (-0.55) 2.1 (-0.6) 0.9 (-2.1) ].

Definition base_columns : list column :=
  [ Column 20 "0,-260;0,540" 4.2 (-1.4) "0.2;0.95;0.2" 4.2 (-1.4)
      [("A", 18); ("Σ", 20); ("7", 21); ("Ω", 19); ("Ñ", 18); ("@", 21); ("Z", 23); ("É", 19); ("?", 18); ("δ", 17); ("∞", 20)];
    Column 60 "0,-300;0,520" 5.1 (-0.8) "0.18;1;0.18" 5.1 (-0.8)
      [("ß", 18); ("M", 21); ("鶴", 22); ("λ", 19); ("Ü", 18); ("鶴", 20); ("Q", 23); ("ß", 19); ("3", 18); ("η", 17); ("≈", 20)];
    Column 100 "0,-240;0,520" 4.7 (-2.3) "0.25;0.9;0.25" 4.7 (-2.3)
      [("C", 18); ("S", 20); ("%", 22); ("Ψ", 19); ("Í", 17); ("5", 21); ("T", 23); ("χ", 19); ("8", 18); ("κ", 17); ("∈", 20)];
    Column 140 "0,-320;0,520" 5.4 (-0.4) "0.18;0.92;0.18" 5.4 (-0.4)
      [("D", 18); ("L", 21); ("$", 22); ("β", 19); ("Ó", 17); ("1", 21); ("P", 23); ("Ξ", 19); ("6", 18); ("ϑ", 17); ("∮", 20)];
    Column 180 "0,-260;0,560" 4.1 (-1.9) "0.26;0.9;0.26" 4.1 (-1.9)
      [("E", 18); ("V", 21); ("0", 22); ("Γ", 19); ("Ú", 17); ("2", 21); ("F", 23); ("Ζ", 19); ("4", 18); ("θ", 17); ("∟", 20)];
    Column 220 "0,-300;0,560" 5.8 (-3.2) "0.17;0.95;0.17" 5.8 (-3.2)
      [("F", 18); ("X", 21); ("!", 22); ("Φ", 19); ("Å", 17); ("%", 21); ("N", 23); ("Π", 19); ("œ", 18); ("μ", 17); ("∴", 20)];
    Column 260 "0,-260;0,520" 4.4 (-0.2) "0.24;0.93;0.24" 4.4 (-0.2)
      [("G", 18); ("Y", 21); ("@", 22); ("Υ", 19); ("Í", 17); ("ρ", 21); ("Æ", 23); ("W", 19); ("ħ", 18); ("ξ", 17); ("∠", 20)];
    Column 300 "0,-280;0,560" 5 (-1.1) "0.2;0.97;0.2" 5 (-1.1)
      [("ñ", 18); ("T", 21); ("8", 22); ("ϖ", 19); ("Ê", 17); ("σ", 21); ("Ğ", 23); ("V", 19); ("ň", 18); ("ς", 17); ("∵", 20)];
    Column 340 "0,-240;0,520" 4.3 (-2.7) "0.22;0.92;0.22" 4.3 (-2.7)
      [("I", 18); ("P", 21); ("6", 22); ("ϱ", 19); ("Ë", 17); ("ϙ", 21); ("Ð", 23); ("U", 19); ("ŕ", 18); ("Ϟ", 17); ("∗", 20)];
    Column 380 "0,-320;0,560" 5.6 (-1.5) "0.19;0.96;0.19" 5.6 (-1.5)
      [("¿", 18); ("N", 21); ("5", 22); ("ϗ", 19); ("Ę", 17); ("ϛ", 21); ("Ç", 23); ("R", 19); ("ś", 18); ("ϟ", 17); ("∯", 20)];
    Column 420 "0,-260;0,520" 4.5 (-0.9) "0.24;0.9;0.24" 4.5 (-0.9)
      [("K", 18); ("C", 21); ("4", 22); ("Ϥ", 19); ("Ě", 17); ("ϝ", 21); ("Ō", 23); ("S", 19); ("ž", 18); ("ϡ", 17); ("∼", 20)];
    Column 460 "0,-300;0,560" 5.2 (-2.5) "0.21;0.94;0.21" 5.2 (-2.5)
      [("ψ", 18); ("E", 21); ("3", 22); ("Θ", 19); ("Á", 17); ("Δ", 21); ("Š", 23); ("T", 19); ("ñ", 18); ("β", 17); ("⊕", 20)] ].

Definition irregular_offsets : list Z :=
  [12; 53; 97; 141; 176; 219; 263; 298; 336; 371; 413; 452].
Definition phase_shifts : list float :=
  [0.85; -0.6; 1.4; -1.15; 0.32; 1.92; -0.78; 1.28; -0.42; 0.96; -1.48; 1.61]%float.
Definition translate_scales : list float :=
  [1.18; 0.82; 1.35; 0.87; 1.26; 0.79; 1.32; 0.9; 1.24; 0.84; 1.29; 0.93]%float.
Definition opacity_scales : list float :=
  [1.12; 0.86; 1.3; 0.9; 1.18; 0.82; 1.24; 0.88; 1.16; 0.84; 1.22; 0.9]%float.

(** ** The pseudorandom generator

    [random.Random] is Python's standard library, not this program: the
    generator is a parameter.  [random_seed s] is [random.Random(s)];
    [random_randint a b g] is the value and the next state of
    [g.randint(a, b)] for a non-empty range. *)
Class Random (G : Type) : Type := {
  random_seed : Z → G;
  random_randint : Z → Z → G → Z * G;
  random_randint_range a b g : a ≤ b → a ≤ (random_randint a b g).1 ≤ b
}.

(** [rng.randint(a, b)]: an empty range is a [ValueError]. *)
Definition py_randint `{Random G} (a b : Z) (rng : G) : result (Z * G) :=
  if b <? a then Raise ValueError else Ok (random_randint a b rng).

(** A linear congruential generator, used where a concrete generator is
    needed to run the program. *)
Definition lcg_next (s : Z) : Z := (s * 1103515245 + 12345) mod 2147483648.

#[global, program] Instance lcg_random : Random Z := {|
  random_seed s := s mod 2147483648;
  random_randint a b g := (a + lcg_next g mod (b - a + 1), lcg_next g)
|}.
Next Obligation.
  intros a b g Hab; simpl.
  pose proof (Z.mod_pos_bound (lcg_next g) (b - a + 1)); lia.
Qed.

(** ** The column layout engine *)

Definition base_len : Z := py_len base_columns.
Definition irregular_len : Z := py_len irregular_offsets.

(** [min(irregular_offsets)] and [max(irregular_offsets)]; the table is not
    empty, so the float alternatives of lines 832-833 are never taken. *)
Definition offset_min : Z :=
  match irregular_offsets with
  | [] => 0
  | o :: os => foldl Z.min o os
  end.

Definition offset_max : Z :=
  match irregular_offsets with
  | [] => 1
  | o :: os => foldl Z.max o os
  end.

(** *** Selection of the irregular offsets (lines 835-872) *)

(** [while idx in used and idx < irregular_len - 1: idx += 1] *)
Fixpoint probe_up (fuel : nat) (used : gset Z) (idx : Z) : result Z :=
  if bool_decide (idx ∈ used) && (idx <? irregular_len - 1) then
    match fuel with
    | O => Raise FuelExhausted
    | S fuel' => probe_up fuel' used (idx + 1)
    end
  else Ok idx.

(** [while candidate >= 0 and candidate in used: candidate -= 1] *)
Fixpoint probe_down (fuel : nat) (used : gset Z) (candidate : Z) : result Z :=
  if (0 <=? candidate) && bool_decide (candidate ∈ used) then
    match fuel with
    | O => Raise FuelExhausted
    | S fuel' => probe_down fuel' used (candidate - 1)
    end
  else Ok candidate.

(** [while idx in used: idx = (idx + 1) % irregular_len] *)
Fixpoint probe_wrap (fuel : nat) (used : gset Z) (idx : Z) : result Z :=
  if bool_decide (idx ∈ used) then
    match fuel with
    | O => Raise FuelExhausted
    | S fuel' => idx' ← py_mod (idx + 1) irregular_len; probe_wrap fuel' used idx'
    end
  else Ok idx.

(** One iteration of the loop of lines 844-860. *)
Definition spread_step (step : float) (state : list Z * gset Z) (i : Z)
  : result (list Z * gset Z) :=
  let '(indices, used) := state in
  fi ← float_of_Z i;
  idx ← py_round (fi * step);
  let idx := Z.max 0 (Z.min (irregular_len - 1) idx) in
  idx ← probe_up (Z.to_nat irregular_len) used idx;
  idx ← (if bool_decide (idx ∈ used) then
           candidate ← probe_down (S (Z.to_nat irregular_len)) used (idx - 1);
           if 0 <=? candidate then Ok candidate
           else
             idx ← py_mod (idx + 1) irregular_len;
             probe_wrap (Z.to_nat irregular_len) used idx
         else Ok idx);
  Ok (indices ++ [idx], {[idx]} ∪ used).

(** A [for] loop over a list with a fallible body and a threaded state. *)
Fixpoint for_each {A S} (body : S → A → result S) (l : list A) (s : S)
  : result S :=
  match l with
  | [] => Ok s
  | a :: l' => s' ← body s a; for_each body l' s'
  end.

(** The inner loop of lines 867-871; the boolean tells whether the function
    returned from inside it. *)
Fixpoint repeat_positions (count offset : Z) (positions indices : list Z)
  : result (list Z * bool) :=
  match positions with
  | [] => Ok (indices, false)
  | pos :: positions' =>
      idx ← py_mod (pos + offset) irregular_len;
      let indices := indices ++ [idx] in
      if py_len indices =? count then Ok (indices, true)
      else repeat_positions count offset positions' indices
  end.

(** The outer loop of lines 865-872. *)
Fixpoint repeat_cycles (count : Z) (cycles indices : list Z) : result (list Z) :=
  match cycles with
  | [] => Ok indices
  | cycle :: cycles' =>
      offset ← py_mod (cycle * 3) irregular_len;
      '(indices, returned) ←
        repeat_positions count offset (py_range irregular_len) indices;
      if (returned : bool) then Ok indices
      else repeat_cycles count cycles' indices
  end.

Definition select_irregular_indices (count : Z) : result (list Z) :=
  if (count <=? 0) || (irregular_len =? 0) then Ok []
  else if count =? 1 then
    mid ← py_floordiv irregular_len 2; Ok [mid]
  else if count <=? irregular_len then
    step ← py_truediv (irregular_len - 1) (count - 1);
    '(indices, _) ← for_each (spread_step step) (py_range count) ([], ∅);
    Ok (merge_sort Z.le indices)
  else
    cycles ← py_floordiv (count + irregular_len - 1) irregular_len;
    repeat_cycles count (py_range cycles) [].

(** *** Column construction (lines 808-907) *)

(** Lines 824-827: the raw position of regular column [idx]. *)
Definition regular_x (regular_count : Z) (span_width : float) (idx : Z)
  : result float :=
  if regular_count =? 1 then py_fdiv span_width 2
  else
    d ← float_of_Z (Z.max (regular_count - 1) 1);
    q ← py_fdiv span_width d;
    fi ← float_of_Z idx;
    Ok (q * fi)%float.

(** Lines 878-882: the raw position of an irregular column. *)
Definition irregular_x (span_width : float) (offset_idx : Z) : result float :=
  normalized ←
    (if offset_max =? offset_min then Ok 0.5%float
     else
       o ← py_index irregular_offsets offset_idx;
       py_truediv (o - offset_min) (offset_max - offset_min));
  Ok (normalized * span_width)%float.

(** Lines 893-900: the rescaled positions. *)
Definition normalized_positions (span_width : float) (xs : list float)
  : result (list float) :=
  min_x ← py_min_list xs;
  max_x ← py_max_list xs;
  if (max_x =? min_x)%float then list_comp (λ _, py_fdiv span_width 2) xs
  else
    scale ← py_fdiv span_width (max_x - min_x);
    Ok ((λ x, (x - min_x) * scale)%float <$> xs).

(** Lines 813-815. *)
Definition span_width_of (regular_count irregular_count : Z) : result float :=
  let total_columns := Z.max (regular_count + irregular_count) 1 in
  ft ← float_of_Z (total_columns - 1);
  Ok (py_fmax MIN_SPAN_WIDTH (ft * COLUMN_BASE_SPACING)).

Section build_columns.
Context `{Random G}.

(** [pick_glyph_target], the closure of lines 817-820. *)
Definition pick_glyph_target (min_gps max_gps : Z) (rng : G)
  : result (Z * G) :=
  if min_gps =? max_gps then Ok (min_gps, rng)
  else py_randint min_gps max_gps rng.

(** The body of the loop of lines 822-830. *)
Definition regular_column (min_gps max_gps regular_count : Z)
    (span_width : float) (state : list column * G) (idx : Z)
  : result (list column * G) :=
  let '(columns, rng) := state in
  k ← py_mod idx base_len;
  template ← py_index base_columns k;
  x ← regular_x regular_count span_width idx;
  let template := set_x template x in
  '(target_count, rng) ← pick_glyph_target min_gps max_gps rng;
  glyphs ← generate_glyph_sequence idx (col_glyphs template) target_count;
  let template := set_glyphs template glyphs in
  Ok (columns ++ [template], rng).

(** The body of the loop of lines 876-890. *)
Definition irregular_column (min_gps max_gps regular_count : Z)
    (span_width : float) (state : list column * G) (entry : Z * Z)
  : result (list column * G) :=
  let '(columns, rng) := state in
  let '(idx, offset_idx) := entry in
  k ← py_mod idx base_len;
  template ← py_index base_columns k;
  x ← irregular_x span_width offset_idx;
  let template := set_x template x in
  shift ← py_index phase_shifts offset_idx;
  translate_scale ← py_index translate_scales offset_idx;
  opacity_scale ← py_index opacity_scales offset_idx;
  let template :=
    set_timing template
      (col_translate_begin template + shift)
      (col_opacity_begin template + shift * 0.65)
      (col_translate_dur template * translate_scale)
      (col_opacity_dur template * opacity_scale) in
  '(target_count, rng) ← pick_glyph_target min_gps max_gps rng;
  glyphs ← generate_glyph_sequence (idx + regular_count)
              (col_glyphs template) target_count;
  let template := set_glyphs template glyphs in
  Ok (columns ++ [template], rng).

(** Lines 892-905: the renormalisation pass and the canvas width. *)
Definition renormalize (span_width : float) (columns : list column)
  : result (list column * float) :=
  match columns with
  | [] => Ok (columns, BASE_CANVAS_WIDTH)
  | _ :: _ =>
      let xs := col_x <$> columns in
      normalized_positions ← normalized_positions span_width xs;
      let columns :=
        zip_with (λ col new_x, set_x col (new_x + EDGE_MARGIN))
                 columns normalized_positions in
      Ok (columns, (span_width + 2 * EDGE_MARGIN)%float)
  end.

(** Lines 808-890: the columns as placed, before renormalisation, with the
    span width and the generator state after the last draw. *)
Definition place_columns (min_gps max_gps regular_count irregular_count : Z)
  : result (list column * float * G) :=
  let rng := random_seed 12648430 in
  span_width ← span_width_of regular_count irregular_count;
  state ← for_each (regular_column min_gps max_gps regular_count span_width)
                   (py_range (Z.max 0 regular_count)) ([], rng);
  irregular_indices ← select_irregular_indices (Z.max 0 irregular_count);
  '(columns, rng) ←
    for_each (irregular_column min_gps max_gps regular_count span_width)
             (py_enumerate 0 irregular_indices) state;
  Ok (columns, span_width, rng).

Definition build_columns (min_gps max_gps regular_count irregular_count : Z)
  : result (list column * float) :=
  '(columns, span_width, _) ←
    place_columns min_gps max_gps regular_count irregular_count;
  renormalize span_width columns.

End build_columns.

(** ** The document tree *)

(** An [xml.etree.ElementTree.Element]: tag, attributes in insertion order,
    text, and children in insertion order. *)
Inductive element : Type :=
  | Element (tag : string) (attrib : list (string * string))
            (text : option string) (children : list element).

Definition tag (e : element) : string :=
  match e with Element t _ _ _ => t end.
Definition attrib (e : element) : list (string * string) :=
  match e with Element _ a _ _ => a end.
Definition text (e : element) : option string :=
  match e with Element _ _ t _ => t end.
Definition children (e : element) : list element :=
  match e with Element _ _ _ c => c end.

(** [d[key] = value] on an insertion-ordered [dict]. *)
Fixpoint dict_set (d : list (string * string)) (key value : string)
  : list (string * string) :=
  match d with
  | [] => [(key, value)]
  | (k, v) :: d' =>
      if String.eqb k key then (k, value) :: d'
      else (k, v) :: dict_set d' key value
  end.

(** [d.get(key)] *)
Fixpoint dict_get (d : list (string * string)) (key : string) : option string :=
  match d with
  | [] => None
  | (k, v) :: d' => if String.eqb k key then Some v else dict_get d' key
  end.

(** ** The animation parameter synthesizer *)

(** [sum(values)] on floats, added left to right from [0]. *)
Definition py_sum (values : list float) : float :=
  foldl (λ acc v, acc + v)%float 0%float values.

(** [tuple(map(float, pair.split(',')))] for each pair of a [';']-separated
    list. *)
Definition parse_pairs (values : string) : result (list (list float)) :=
  list_comp (λ pair, list_comp py_float (py_split "," pair))
            (py_split ";" values).

(** The per-column quantities of lines 659-668. *)
Record column_phase : Type := ColumnPhase {
  start_offset_y : float;
  end_offset_y : float;
  column_anchor : float
}.

Definition column_phase_of (col_idx : Z) (col : column) : result column_phase :=
  translate_pairs ← parse_pairs (col_translate_values col);
  first_pair ← py_index translate_pairs 0;
  start_offset_y ← py_index first_pair 1;
  last_pair ← py_index translate_pairs (-1);
  end_offset_y ← py_index last_pair 1;
  group ← float_of_Z (col_idx mod COLUMN_WAVE_GROUP);
  let column_wave_base := (group * COLUMN_PHASE_STEP)%float in
  wave ← float_of_Z (col_idx / COLUMN_WAVE_GROUP);
  let column_wave_secondary :=
    (wave * COLUMN_PHASE_STEP * COLUMN_SECONDARY_FACTOR)%float in
  fcol ← float_of_Z col_idx;
  let column_wave_jitter :=
    ((py_fmod_one (fcol * 0.61803398875) - 0.5) * COLUMN_RANDOM_JITTER)%float in
  Ok (ColumnPhase start_offset_y end_offset_y
        (column_wave_base + column_wave_secondary + column_wave_jitter)).

(** The fall animation of lines 736-747. *)
Definition fall_animation (start_translation end_translation fall_dur fall_begin : float)
  : element :=
  Element "animateTransform"
    [ ("attributeName", "transform");
      ("type", "translate");
      ("values", "0," +:+ fmt_num start_translation +:+ ";0,"
                      +:+ fmt_num end_translation);
      ("dur", fmt_num fall_dur +:+ "s");
      ("begin", fmt_num fall_begin +:+ "s");
      ("repeatCount", "indefinite") ] None [].

(** Lines 749-760. *)
Definition fill_opacity_animation (p : pattern) (fill_begin : float) : element :=
  Element "animate"
    [ ("attributeName", "fill-opacity");
      ("values", pat_fill_values p);
      ("dur", fmt_num (pat_fill_dur p) +:+ "s");
      ("begin", fmt_num fill_begin +:+ "s");
      ("repeatCount", "indefinite") ] None [].

(** Lines 762-773. *)
Definition opacity_animation (per_glyph_opacity : string)
    (opacity_dur opacity_begin : float) : element :=
  Element "animate"
    [ ("attributeName", "opacity");
      ("values", per_glyph_opacity);
      ("dur", fmt_num opacity_dur +:+ "s");
      ("begin", fmt_num opacity_begin +:+ "s");
      ("repeatCount", "indefinite") ] None [].

(** Lines 775-788. *)
Definition font_size_animation (p : pattern) (scale_values : string)
    (size_begin : float) : element :=
  Element "animateTransform"
    [ ("attributeName", "transform");
      ("type", "scale");
      ("values", scale_values);
      ("dur", fmt_num (pat_size_dur p) +:+ "s");
      ("begin", fmt_num size_begin +:+ "s");
      ("repeatCount", "indefinite");
      ("additive", "sum") ] None [].

(** Lines 790-803. *)
Definition jitter_animation (p : pattern) (jitter_begin : float) : element :=
  Element "animateTransform"
    [ ("attributeName", "transform");
      ("type", "translate");
      ("values", pat_transform_values p);
      ("dur", fmt_num (pat_transform_dur p) +:+ "s");
      ("begin", fmt_num jitter_begin +:+ "s");
      ("repeatCount", "indefinite");
      ("additive", "sum") ] None [].

(** [(size + delta) / size if size else 1.0], then [max(_, 0.2)]. *)
Definition size_scale (size : Z) (delta : float) : result float :=
  scale ← (if size =? 0 then Ok 1%float
           else fs ← float_of_Z size; py_fdiv (fs + delta) fs);
  Ok (py_fmax scale 0.2).

(** The values a glyph's timelines are built from (lines 671-717). *)
Record glyph_timing : Type := GlyphTiming {
  base_y : Z;
  gt_pattern : pattern;
  start_translation : float;
  end_translation : float;
  fill_begin : float;
  jitter_begin : float;
  size_begin : float;
  opacity_begin : float;
  fall_dur : float;
  fall_begin : float;
  opacity_dur : float;
  scale_values : string;
  peak_opacity : float;
  per_glyph_opacity : string;
  fill_static : string
}.

Definition glyph_timing_of (col_idx : Z) (col : column) (ph : column_phase)
    (glyph_idx size : Z) : result glyph_timing :=
  let base_y := 20 + glyph_idx * 40 in
  pattern_idx ← py_mod (glyph_idx + col_idx) (py_len patterns);
  pattern ← py_index patterns pattern_idx;
  fcol ← float_of_Z col_idx;
  fglyph ← float_of_Z glyph_idx;
  let micro_phase := ((fcol * 0.18 + fglyph * 0.07) * MICRO_PHASE_SCALE)%float in
  fbase ← float_of_Z base_y;
  let start_y := (fbase + start_offset_y ph)%float in
  let end_y := (fbase + end_offset_y ph)%float in
  let start_translation := (start_y - fbase)%float in
  let end_translation := (end_y - fbase)%float in
  let fill_begin := (pat_fill_begin pattern + column_anchor ph - micro_phase)%float in
  let jitter_begin :=
    (pat_transform_begin pattern + column_anchor ph - micro_phase * 0.8)%float in
  let size_begin :=
    (pat_size_begin pattern + column_anchor ph - micro_phase * 0.5)%float in
  let opacity_begin :=
    (col_opacity_begin col + column_anchor ph - micro_phase * 0.6)%float in
  g5 ← float_of_Z (glyph_idx mod 5);
  p3 ← float_of_Z (pattern_idx mod 3);
  let fall_scale := (0.95 + 0.08 * g5 + 0.05 * p3)%float in
  let fall_dur := (col_translate_dur col * fall_scale * VERTICAL_SPEED_FACTOR)%float in
  let fall_begin := (col_translate_begin col + column_anchor ph - micro_phase)%float in
  o4 ← float_of_Z ((glyph_idx + 2 * col_idx) mod 4);
  let opacity_scale := (0.9 + 0.04 * o4)%float in
  let opacity_dur := (col_opacity_dur col * opacity_scale)%float in
  scale_high ← size_scale size (pat_size_high pattern);
  scale_low ← size_scale size (pat_size_low pattern);
  let scale_values :=
    py_join ";" (fmt_num <$> [1%float; scale_high; scale_low; 1%float]) in
  let opacity_values := py_split ";" (col_opacity_values col) in
  peak_text ← py_index opacity_values 1;
  peak ← py_float peak_text;
  g3 ← float_of_Z (glyph_idx mod 3 - 1);
  let peak_opacity :=
    py_fmin 0.98 (py_fmax 0.4 (peak * (1.0 + 0.08 * g3)))%float in
  let per_glyph_opacity :=
    py_join ";" [fmt_num 0.08; fmt_num peak_opacity; fmt_num 0.06] in
  fill_values_sequence ←
    list_comp py_float (py_split ";" (pat_fill_values pattern));
  count ← float_of_Z (py_len fill_values_sequence);
  mean ← py_fdiv (py_sum fill_values_sequence) count;
  Ok (GlyphTiming base_y pattern start_translation end_translation
        fill_begin jitter_begin size_begin opacity_begin fall_dur fall_begin
        opacity_dur scale_values peak_opacity per_glyph_opacity (fmt_num mean)).

(** Lines 719-731: the attributes of the [text] element. *)
Definition text_attrs_of (nice_flags : gmap string bool) (t : glyph_timing)
    (size : Z) : result (list (string * string)) :=
  y ← fmt_num_int (base_y t);
  font_size ← fmt_num_int size;
  let text_attrs :=
    [ ("x", "0"); ("y", y); ("fill", "url(#gradGlow)");
      ("font-size", font_size);
      ("transform", "translate(0," +:+ fmt_num (start_translation t) +:+ ")") ] in
  no_opacity ← flag nice_flags "disable_per_glyph_opacity";
  let text_attrs :=
    if (no_opacity : bool) then dict_set text_attrs "opacity" (fmt_num (peak_opacity t))
    else text_attrs in
  no_fill ← flag nice_flags "disable_fill_opacity_pulse";
  let text_attrs :=
    if (no_fill : bool) then dict_set text_attrs "fill-opacity" (fill_static t)
    else text_attrs in
  Ok text_attrs.

(** Lines 733-803: the [text] element and the animations attached to it. *)
Definition glyph_text (nice_flags : gmap string bool) (t : glyph_timing)
    (char : string) (size : Z) : result element :=
  text_attrs ← text_attrs_of nice_flags t size;
  let animations :=
    [fall_animation (start_translation t) (end_translation t)
                    (fall_dur t) (fall_begin t)] in
  no_fill ← flag nice_flags "disable_fill_opacity_pulse";
  let animations :=
    if negb no_fill
    then animations ++ [fill_opacity_animation (gt_pattern t) (fill_begin t)]
    else animations in
  no_opacity ← flag nice_flags "disable_per_glyph_opacity";
  let animations :=
    if negb no_opacity
    then animations ++ [opacity_animation (per_glyph_opacity t)
                          (opacity_dur t) (opacity_begin t)]
    else animations in
  no_size ← flag nice_flags "disable_font_size_animation";
  let animations :=
    if negb no_size
    then animations ++ [font_size_animation (gt_pattern t) (scale_values t)
                          (size_begin t)]
    else animations in
  no_jitter ← flag nice_flags "disable_micro_jitter";
  let animations :=
    if negb no_jitter
    then animations ++ [jitter_animation (gt_pattern t) (jitter_begin t)]
    else animations in
  Ok (Element "text" text_attrs (Some char) animations).

(** The body of the loop of lines 670-803. *)
Definition rain_glyph (nice_flags : gmap string bool) (col_idx : Z)
    (col : column) (ph : column_phase) (entry : Z * glyph) : result element :=
  let '(glyph_idx, (char, size)) := entry in
  t ← glyph_timing_of col_idx col ph glyph_idx size;
  glyph_text nice_flags t char size.

(** The body of the loop of lines 648-803. *)
Definition rain_column (nice_flags : gmap string bool) (entry : Z * column)
  : result element :=
  let '(col_idx, col) := entry in
  no_trail ← flag nice_flags "disable_trail_filter";
  let inner_attrs :=
    if negb no_trail then [("filter", "url(#trailGlow)")] else [] in
  ph ← column_phase_of col_idx col;
  texts ← list_comp (rain_glyph nice_flags col_idx col ph)
                    (py_enumerate 0 (col_glyphs col));
  Ok (Element "g"
        [("transform", "translate(" +:+ fmt_num (col_x col) +:+ ",0)")] None
        [Element "g" inner_attrs None texts]).

Definition build_matrix_rain (columns : list column)
    (nice_flags : gmap string bool) : result element :=
  groups ← list_comp (rain_column nice_flags) (py_enumerate 0 columns);
  Ok (Element "g"
        [ ("id", "matrixRain"); ("opacity", "0.95");
          ("font-family", "system-ui, sans-serif"); ("letter-spacing", "2") ]
        None groups).

(** ** The entry point *)

(** What [build_svg] computes before the document is assembled: the clamped
    level and its flags, the columns and canvas width, the glyph layer, and
    whether the overlay is included.  The assembly itself (metadata, style,
    definitions, backgrounds, serialisation) is constant markup around these
    parts. *)
Record svg_parts : Type := SvgParts {
  svg_nice_level : Z;
  svg_nice_flags : gmap string bool;
  svg_columns : list column;
  svg_canvas_width : float;
  svg_width_text : string;
  svg_matrix_rain : element;
  svg_include_lightning : bool
}.

Section build_svg.
Context `{Random G}.

Definition build_svg (include_lightning : bool)
    (nice_level gps_min gps_max : Z)
    (regular_columns irregular_columns : option Z) : result svg_parts :=
  let '(nice_level, nice_flags) := resolve_nice_flags nice_level in
  let gps_min := Z.max 1 gps_min in
  let gps_max := Z.max gps_min gps_max in
  let regular_columns := default (py_len base_columns) regular_columns in
  let irregular_columns := default (py_len base_columns) irregular_columns in
  let regular_columns := Z.max 0 regular_columns in
  let irregular_columns := Z.max 0 irregular_columns in
  '(columns, canvas_width) ←
    build_columns gps_min gps_max regular_columns irregular_columns;
  include_lightning ←
    (if include_lightning then
       no_lightning ← flag nice_flags "disable_lightning";
       Ok (negb no_lightning)
     else Ok false);
  rain ← build_matrix_rain columns nice_flags;
  Ok (SvgParts nice_level nice_flags columns canvas_width
        (fmt_num canvas_width) rain include_lightning).

End build_svg.

(** ** Definitions used to state the properties *)

#[global] Instance Z_divide_dec : RelDecision Z.divide.
Proof.
  refine (λ a b, cast_if (decide (b mod a = 0)));
    abstract (destruct (decide (a = 0)) as [->|Ha];
              [ rewrite Z.mod_0_r in *; subst; first [apply Z.divide_0_r | by intros ?%Z.divide_0_l]
              | by rewrite <- Z.mod_divide ]).
Defined.

(** The signature glyphs in front of the extension cycle, by divisibility of
    the seed. *)
Definition signature_prefix (column_seed : Z) : list glyph :=
  (if decide (5 | column_seed) then [K2_GLYPH]
   else if decide (7 | column_seed) then [KTWO_GLYPH]
   else [])
  ++ (if decide (11 | column_seed) then [ASSISTANT_GLYPH] else []).

(** The names of the feature steps, in declared order. *)
Definition feature_names : list string := NICE_FEATURE_STEPS.*1.

(** A fall animation is an [animateTransform] of type [translate] that is not
    additive (the micro-jitter is the additive one). *)
Definition is_fall_animation (a : element) : bool :=
  String.eqb (tag a) "animateTransform"
  && bool_decide (dict_get (attrib a) "type" = Some "translate")
  && bool_decide (dict_get (attrib a) "additive" = None).

(** The attributes every [text] element carries, whatever the flags. *)
Definition base_text_attrs (y font_size : string) (start_translation : float)
  : list (string * string) :=
  [ ("x", "0"); ("y", y); ("fill", "url(#gradGlow)"); ("font-size", font_size);
    ("transform", "translate(0," +:+ fmt_num start_translation +:+ ")") ].

(** The text elements of a glyph layer, column by column. *)
Definition rain_texts (rain : element) : list (list element) :=
  (λ column_group, concat (children <$> children column_group))
  <$> children rain.

(** A static fallback stands in the element emitted with a timeline disabled
    when that element carries an attribute which the element emitted with the
    timeline enabled does not carry. *)
Definition static_fallback_emitted (enabled disabled : element) : Prop :=
  ∃ key value,
    dict_get (attrib disabled) key = Some value ∧
    dict_get (attrib enabled) key = None.

(** The values and the final state of [n] successive calls of
    [rng.randint(a, b)]. *)
Fixpoint randint_stream `{Random G} (a b : Z) (n : nat) (rng : G) : list Z * G :=
  match n with
  | O => ([], rng)
  | S n' =>
      let '(v, rng) := random_randint a b rng in
      let '(vs, rng) := randint_stream a b n' rng in
      (v :: vs, rng)
  end.

(** The raw positions of the columns, by the counts alone. *)
Definition placed_xs (regular_count irregular_count : Z)
  : result (list float * float) :=
  span_width ← span_width_of regular_count irregular_count;
  regular ← list_comp (regular_x regular_count span_width)
                      (py_range (Z.max 0 regular_count));
  irregular_indices ← select_irregular_indices (Z.max 0 irregular_count);
  irregular ← list_comp (irregular_x span_width) irregular_indices;
  Ok (regular ++ irregular, span_width).

(** The rescaled and shifted positions and the canvas width, from the raw
    positions. *)
Definition renormalize_xs (span_width : float) (xs : list float)
  : result (list float * float) :=
  match xs with
  | [] => Ok ([], BASE_CANVAS_WIDTH)
  | _ :: _ =>
      positions ← normalized_positions span_width xs;
      Ok ((λ new_x : float, new_x + EDGE_MARGIN)%float <$> (positions : list float),
          (span_width + 2 * EDGE_MARGIN)%float)
  end.

(** The final positions of the columns and the canvas width, by the counts
    alone. *)
Definition final_xs (regular_count irregular_count : Z)
  : result (list float * float) :=
  placed ← placed_xs regular_count irregular_count;
  renormalize_xs placed.2 placed.1.

(** The trace of a loop that appends one item per iteration: [steps step s l
    cs s'] relates the state before the loop, the items iterated over, the
    items appended and the state after the loop. *)
Inductive steps {A C S} (step : S → A → C → S → Prop)
  : S → list A → list C → S → Prop :=
  | steps_nil s : steps step s [] [] s
  | steps_cons s a c s' l cs s'' :
      step s a c s' → steps step s' l cs s'' →
      steps step s (a :: l) (c :: cs) s''.

(** Bit-for-bit equality of two lists of floats. *)
Definition float_list_eqb (xs ys : list float) : bool :=
  bool_decide (length xs = length ys)
  && forallb (λ p, PrimFloat.Leibniz.eqb p.1 p.2) (zip xs ys).

(** Whether, with one regular column, the first final position is the span
    midpoint. *)
Definition regular_column_at_midpoint (irregular_count : Z) : bool :=
  match final_xs 1 irregular_count, span_width_of 1 irregular_count with
  | Ok (x :: _, _), Ok span_width => PrimFloat.Leibniz.eqb x (span_width / 2)
  | _, _ => false
  end.

(** What an iteration of either column loop does to the generator and to the
    column it appends: the column is a template of the base library with its
    raw position [x_of], and its glyphs are generated, with the given seed,
    for the target count drawn from the generator. *)
Definition column_step `{Random G} (min_gps max_gps : Z) (x_of : result float)
    (seed : Z) (rng : G) (c : column) (rng' : G) : Prop :=
  ∃ template target_count,
    template ∈ base_columns ∧
    x_of = Ok (col_x c) ∧
    pick_glyph_target min_gps max_gps rng = Ok (target_count, rng') ∧
    generate_glyph_sequence seed (col_glyphs template) target_count
    = Ok (col_glyphs c) ∧
    col_translate_values c = col_translate_values template ∧
    col_opacity_values c = col_opacity_values template.

(** Every glyph a column can carry: the glyphs of the base library, the extra
    glyph cycle and the signature glyphs. *)
Definition all_glyphs : list glyph :=
  concat (col_glyphs <$> base_columns)
  ++ [K2_GLYPH; KTWO_GLYPH; ASSISTANT_GLYPH] ++ extra_glyph_cycle.

(** Whether the keyframe strings of a column template parse as the
    synthesizer reads them (lines 659-663 and 701-706). *)
Definition template_strings_ok (c : column) : bool :=
  is_ok (translate_pairs ← parse_pairs (col_translate_values c);
         first_pair ← py_index translate_pairs 0;
         start_offset_y ← py_index first_pair 1;
         last_pair ← py_index translate_pairs (-1);
         py_index last_pair 1)
  && is_ok (peak_text ← py_index (py_split ";" (col_opacity_values c)) 1;
            py_float peak_text).

(** Whether the fill keyframes of a pattern have a mean (lines 714-717) and
    the size bounds of a glyph scale under it (lines 693-696). *)
Definition pattern_ok (p : pattern) : bool :=
  is_ok (fill_values_sequence ←
           list_comp py_float (py_split ";" (pat_fill_values p));
         count ← float_of_Z (py_len fill_values_sequence);
         py_fdiv (py_sum fill_values_sequence) count)
  && forallb (λ g : glyph,
                is_ok (size_scale g.2 (pat_size_high p))
                && is_ok (size_scale g.2 (pat_size_low p)))
             all_glyphs.

(** An index into the offset tables of the irregular columns. *)
Definition offset_index (k : Z) : Prop := 0 ≤ k < irregular_len.

(** A flag map that has a flag for every feature. *)
Definition flags_complete (nice_flags : gmap string bool) : Prop :=
  ∀ name, name ∈ feature_names → is_Some (nice_flags !! name).

(** A column as the layout engine produces them: the keyframe strings of a
    template of the base library, glyphs of the glyph tables, and a number of
    them within the glyph bounds. *)
Definition column_wf (min_gps max_gps : Z) (c : column) : Prop :=
  (∃ template,
     template ∈ base_columns ∧
     col_translate_values c = col_translate_values template ∧
     col_opacity_values c = col_opacity_values template) ∧
  Forall (λ g, g ∈ all_glyphs) (col_glyphs c) ∧
  Z.max 0 min_gps ≤ py_len (col_glyphs c) ≤ Z.max 0 max_gps.

(** A closed decidable proposition is settled by evaluating its decision
    procedure. *)
Ltac decide_by_compute :=
  match goal with
  | |- ?P => apply (bool_decide_eq_true_1 P); vm_compute; reflexivity
  end.

(** * Properties *)

(** ** The result monad and the Python built-ins *)

Lemma bind_Ok {A B} (f : A → result B) (a : A) : (Ok a ≫= f) = f a.
Proof. reflexivity. Qed.

Lemma bind_inv {A B} (f : A → result B) (r : result A) (b : B) :
  (r ≫= f) = Ok b → ∃ a, r = Ok a ∧ f a = Ok b.
Proof. destruct r as [a|e]; simpl; intros; [eauto | discriminate]. Qed.

Lemma py_mod_ok (a b : Z) : b ≠ 0 → py_mod a b = Ok (a mod b).
Proof. intros Hb. unfold py_mod. by rewrite (proj2 (Z.eqb_neq b 0) Hb). Qed.

Lemma py_index_ok {A} (l : list A) (i : Z) (a : A) :
  0 ≤ i → l !! Z.to_nat i = Some a → py_index l i = Ok a.
Proof.
  intros Hi Hl. unfold py_index.
  destruct (i <? 0) eqn:E; [lia|]. cbv zeta. by rewrite E, Hl.
Qed.

Lemma py_len_app {A} (l1 l2 : list A) : py_len (l1 ++ l2) = py_len l1 + py_len l2.
Proof. unfold py_len. rewrite length_app. lia. Qed.

Lemma py_len_nonneg {A} (l : list A) : 0 ≤ py_len l.
Proof. unfold py_len. lia. Qed.

Lemma list_comp_ok {A B} (f : A → result B) (g : A → B) (l : list A) :
  (∀ a, a ∈ l → f a = Ok (g a)) → list_comp f l = Ok (g <$> l).
Proof.
  induction l as [|a l IH]; intros Hf; [done|].
  simpl. rewrite Hf by left. simpl.
  rewrite IH; [done|]. intros a' Ha'. apply Hf. by right.
Qed.

(** ** The glyph sequence generator *)

Lemma divides_eqb (d n : Z) : d ≠ 0 → (n mod d =? 0) = bool_decide ((d | n)).
Proof.
  intros Hd. destruct (n mod d =? 0) eqn:E.
  - symmetry. apply bool_decide_eq_true. apply Z.mod_divide; [done|]. lia.
  - symmetry. apply bool_decide_eq_false. intros Hdiv.
    apply Z.mod_divide in Hdiv; [|done]. lia.
Qed.

Lemma extended_cycle_prefix (seed : Z) :
  extended_cycle seed = signature_prefix seed ++ extra_glyph_cycle.
Proof.
  unfold extended_cycle, signature_prefix.
  rewrite !divides_eqb by done.
  repeat case_decide; repeat case_bool_decide; done.
Qed.

Lemma extended_cycle_length (seed : Z) : 17 ≤ py_len (extended_cycle seed) ≤ 19.
Proof.
  unfold extended_cycle.
  repeat match goal with |- context [if ?b then _ else _] => destruct b end;
    unfold py_len; simpl; lia.
Qed.

(** The rotation never fails on a non-empty cycle, and entry [i] of the
    rotated cycle is entry [(rotation + i) mod len] of the cycle. *)
Lemma rotated_cycle_ok (seed : Z) (cycle : list glyph) :
  0 < py_len cycle →
  ∃ rotated,
    rotated_cycle seed cycle = Ok (py_len cycle, rotated) ∧
    py_len rotated = py_len cycle ∧
    ∀ i, 0 ≤ i < py_len cycle →
      rotated !! Z.to_nat i
      = cycle !! Z.to_nat (((seed * 3) mod py_len cycle + i) mod py_len cycle).
Proof.
  intros Hlen. set (L := py_len cycle) in *.
  assert (∀ j, 0 ≤ j < L → is_Some (cycle !! Z.to_nat j)) as Hsome.
  { intros j Hj. apply lookup_lt_is_Some. unfold L, py_len in Hj. lia. }
  destruct (Hsome 0 ltac:(lia)) as [g0 _].
  set (pick := λ i : Z, default g0 (cycle !! Z.to_nat (((seed * 3) mod L + i) mod L))).
  exists (pick <$> py_range L).
  assert (length (pick <$> py_range L) = Z.to_nat L) as Hl.
  { rewrite length_fmap. unfold py_range. by rewrite length_seqZ. }
  split; [|split].
  - unfold rotated_cycle. fold L. rewrite py_mod_ok by lia. simpl.
    rewrite (list_comp_ok _ pick); [done|].
    intros i Hi. unfold py_range in Hi. apply elem_of_seqZ in Hi.
    rewrite py_mod_ok by lia. simpl.
    pose proof (Z.mod_pos_bound ((seed * 3) mod L + i) L ltac:(lia)) as Hb.
    destruct (Hsome _ Hb) as [g Hg].
    unfold pick. rewrite Hg. simpl. by apply py_index_ok; [lia|].
  - unfold py_len. rewrite Hl. unfold L, py_len. lia.
  - intros i Hi. rewrite list_lookup_fmap. unfold py_range.
    rewrite (lookup_seqZ_lt 0 L (Z.to_nat i)) by lia. simpl.
    unfold pick. rewrite Z2Nat.id by lia. rewrite Z.add_0_l.
    pose proof (Z.mod_pos_bound ((seed * 3) mod L + i) L ltac:(lia)) as Hb.
    destruct (Hsome _ Hb) as [g Hg]. by rewrite Hg.
Qed.

(** The [while] loop terminates within [target_count - len(glyphs)]
    iterations, appending the rotated cycle cyclically. *)
Lemma extend_glyphs_ok (rotated : list glyph) (target : Z) :
  0 < py_len rotated →
  ∀ (fuel : nat) (glyphs : list glyph) (cycle_idx : Z),
    0 ≤ cycle_idx →
    (Z.to_nat (target - py_len glyphs) ≤ fuel)%nat →
    ∃ ext,
      extend_glyphs fuel rotated (py_len rotated) target glyphs cycle_idx
      = Ok (glyphs ++ ext) ∧
      length ext = Z.to_nat (target - py_len glyphs) ∧
      ∀ k : nat, (k < length ext)%nat →
        ext !! k
        = rotated !! Z.to_nat ((cycle_idx + Z.of_nat k) mod py_len rotated).
Proof.
  intros Hlen. set (L := py_len rotated) in *.
  assert (L = Z.of_nat (length rotated)) as HL by done.
  induction fuel as [|fuel IH]; intros glyphs cycle_idx Hidx Hfuel.
  - exists []. cbn [extend_glyphs].
    rewrite (proj2 (Z.ltb_ge (py_len glyphs) target)) by lia.
    rewrite app_nil_r. split; [done|]. split; [cbn [length]; lia|]. cbn [length]. lia.
  - cbn [extend_glyphs]. destruct (py_len glyphs <? target) eqn:Elt.
    + apply Z.ltb_lt in Elt.
      rewrite py_mod_ok by lia. simpl.
      pose proof (Z.mod_pos_bound cycle_idx L ltac:(lia)) as Hb.
      destruct (lookup_lt_is_Some_2 rotated (Z.to_nat (cycle_idx mod L))) as [g Hg].
      { lia. }
      rewrite (py_index_ok _ _ g) by (done || lia). simpl.
      destruct (IH (glyphs ++ [g]) (cycle_idx + 1)) as (ext & Hext & Hl & Hk).
      { lia. }
      { rewrite py_len_app. unfold py_len at 2. simpl. lia. }
      exists (g :: ext). rewrite Hext.
      split; [by rewrite <- app_assoc|].
      rewrite py_len_app in Hl. unfold py_len in Hl at 2. simpl in Hl.
      split; [cbn [length]; lia|].
      intros [|k] Hklt.
      * cbn [lookup list_lookup]. by rewrite Z.add_0_r.
      * cbn [length] in Hklt. cbn [lookup list_lookup].
        rewrite Hk by lia. do 3 f_equal. lia.
    + apply Z.ltb_ge in Elt. exists []. rewrite app_nil_r.
      split; [done|]. split; [cbn [length]; lia|]. cbn [length]. lia.
Qed.

(** The extension path as a whole. *)
Lemma generate_glyph_sequence_extend (seed : Z) (base : list glyph) (target : Z) :
  py_len base < target →
  let cycle := extended_cycle seed in
  let L := py_len cycle in
  ∃ ext,
    generate_glyph_sequence seed base target = Ok (base ++ ext) ∧
    py_len ext = target - py_len base ∧
    ∀ k : nat, (k < length ext)%nat →
      ext !! k
      = cycle !! Z.to_nat (((seed * 3) mod L + Z.of_nat k mod L) mod L).
Proof.
  intros Hlt cycle L.
  pose proof (py_len_nonneg base) as Hb0.
  pose proof (extended_cycle_length seed) as HL. fold cycle L in HL.
  unfold generate_glyph_sequence.
  rewrite (proj2 (Z.leb_gt target 0)) by lia.
  assert (py_slice_to base target = base) as ->.
  { unfold py_slice_to. apply take_ge. unfold py_len in Hlt. lia. }
  rewrite (proj2 (Z.eqb_neq (py_len base) target)) by lia.
  destruct (rotated_cycle_ok seed cycle) as (rotated & Hrot & Hrl & Hri); [lia|].
  fold cycle. rewrite Hrot. simpl. fold L in Hrl, Hri.
  destruct (extend_glyphs_ok rotated target ltac:(lia) (Z.to_nat target) base 0)
    as (ext & Hext & Hl & Hk); [lia|lia|].
  rewrite Hrl in Hext, Hk.
  exists ext. split; [exact Hext|]. split; [unfold py_len in *; lia|].
  intros k Hklt. rewrite Hk by done. rewrite Z.add_0_l.
  pose proof (Z.mod_pos_bound (Z.of_nat k) L ltac:(lia)).
  by rewrite Hri.
Qed.

(** C1: the contract of the glyph sequence generator.  A non-positive target
    gives the empty sequence; a target within the base list gives exactly
    its first [target_count] entries; a larger target gives the whole base
    list followed by entries of the extension cycle (the extra glyph cycle
    with its signature prefix), [target_count] entries in all. *)
Theorem generate_glyph_sequence_contract (seed : Z) (base : list glyph) (target : Z) :
  (target ≤ 0 → generate_glyph_sequence seed base target = Ok []) ∧
  (0 < target ≤ py_len base →
     generate_glyph_sequence seed base target = Ok (take (Z.to_nat target) base)) ∧
  (py_len base < target →
     ∃ ext,
       generate_glyph_sequence seed base target = Ok (base ++ ext) ∧
       py_len (base ++ ext) = target ∧
       take (length base) (base ++ ext) = base ∧
       Forall (λ g, g ∈ signature_prefix seed ++ extra_glyph_cycle) ext).
Proof.
  split; [|split].
  - intros Hle. unfold generate_glyph_sequence.
    by rewrite (proj2 (Z.leb_le target 0) Hle).
  - intros [Hpos Hle]. unfold generate_glyph_sequence.
    rewrite (proj2 (Z.leb_gt target 0)) by lia.
    unfold py_slice_to.
    assert (py_len (take (Z.to_nat target) base) = target) as Hl.
    { unfold py_len in *. rewrite length_take. lia. }
    by rewrite Hl, Z.eqb_refl.
  - intros Hlt.
    destruct (generate_glyph_sequence_extend seed base target Hlt)
      as (ext & Hgen & Hl & Hk).
    exists ext. split; [done|]. split; [rewrite py_len_app; lia|].
    split; [by rewrite take_app_length|].
    apply Forall_forall. intros g Hg.
    apply list_elem_of_lookup in Hg as [k Hk'].
    rewrite <- extended_cycle_prefix.
    rewrite Hk in Hk' by (by eapply lookup_lt_Some).
    by eapply list_elem_of_lookup_2.
Qed.

(** The three cases of C1 on concrete inputs. *)
Lemma generate_glyph_sequence_contract_witness :
  generate_glyph_sequence 7 [("A", 18); ("B", 20)] (-3) = Ok [] ∧
  generate_glyph_sequence 7 [("A", 18); ("B", 20)] 1 = Ok [("A", 18)] ∧
  ∃ ext,
    generate_glyph_sequence 7 [("A", 18); ("B", 20)] 4
    = Ok ([("A", 18); ("B", 20)] ++ ext) ∧
    py_len ([("A", 18); ("B", 20)] ++ ext) = 4 ∧
    take 2 ([("A", 18); ("B", 20)] ++ ext) = [("A", 18); ("B", 20)] ∧
    Forall (λ g, g ∈ signature_prefix 7 ++ extra_glyph_cycle) ext.
Proof.
  pose proof (generate_glyph_sequence_contract 7 [("A", 18); ("B", 20)] (-3)) as (H1 & _ & _).
  pose proof (generate_glyph_sequence_contract 7 [("A", 18); ("B", 20)] 1) as (_ & H2 & _).
  pose proof (generate_glyph_sequence_contract 7 [("A", 18); ("B", 20)] 4) as (_ & _ & H3).
  split; [apply H1; lia|].
  split; [apply H2; unfold py_len; simpl; lia|].
  apply H3. unfold py_len. simpl. lia.
Defined.

(** C5: the extension path.  The extension cycle is the extra glyph cycle
    with the signature glyphs put in front of it by the seed's divisibility:
    the divisible-by-11 glyph whenever 11 divides the seed, and before it the
    divisible-by-5 glyph, or else the divisible-by-7 glyph.  Entry [k] of the
    extension is entry [(rotation + k mod len) mod len] of that cycle, with
    [rotation = (seed * 3) mod len]. *)
Theorem generate_glyph_sequence_extension_path (seed : Z) (base : list glyph)
    (target : Z) :
  py_len base < target →
  let cycle := extended_cycle seed in
  let L := py_len cycle in
  cycle
  = (if decide (5 | seed) then [K2_GLYPH]
     else if decide (7 | seed) then [KTWO_GLYPH] else [])
    ++ (if decide (11 | seed) then [ASSISTANT_GLYPH] else [])
    ++ extra_glyph_cycle ∧
  ∃ ext,
    generate_glyph_sequence seed base target = Ok (base ++ ext) ∧
    py_len ext = target - py_len base ∧
    ∀ k : nat, (k < length ext)%nat →
      ext !! k
      = cycle !! Z.to_nat (((seed * 3) mod L + Z.of_nat k mod L) mod L).
Proof.
  intros Hlt cycle L. split.
  - unfold cycle. rewrite extended_cycle_prefix. unfold signature_prefix.
    by rewrite <- app_assoc.
  - by apply generate_glyph_sequence_extend.
Qed.

Lemma generate_glyph_sequence_extension_path_witness :
  let cycle := extended_cycle 55 in
  let L := py_len cycle in
  cycle = [K2_GLYPH] ++ [ASSISTANT_GLYPH] ++ extra_glyph_cycle ∧
  ∃ ext,
    generate_glyph_sequence 55 [("A", 18)] 30 = Ok ([("A", 18)] ++ ext) ∧
    py_len ext = 30 - py_len [("A", 18)] ∧
    ∀ k : nat, (k < length ext)%nat →
      ext !! k
      = cycle !! Z.to_nat (((55 * 3) mod L + Z.of_nat k mod L) mod L).
Proof.
  apply (generate_glyph_sequence_extension_path 55 [("A", 18)] 30).
  unfold py_len. simpl. lia.
Defined.

(** ** The quality-dial resolver *)

Lemma clamped_level_cases (requested : Z) :
  let level := Z.max 0 (Z.min requested MAX_NICE_LEVEL) in
  level ∈ [0; 1; 2; 3; 4; 5; 6].
Proof.
  intros level. unfold MAX_NICE_LEVEL, py_len in level. simpl in level.
  assert (0 ≤ level ≤ 6) as Hb by (subst level; lia).
  clearbody level. rewrite !elem_of_cons, elem_of_nil. lia.
Qed.

(** The flags depend on the clamped level only. *)
Lemma resolve_nice_flags_clamped (requested : Z) :
  resolve_nice_flags requested
  = resolve_nice_flags (Z.max 0 (Z.min requested MAX_NICE_LEVEL)).
Proof.
  unfold resolve_nice_flags.
  replace (Z.max 0 (Z.min (Z.max 0 (Z.min requested MAX_NICE_LEVEL)) MAX_NICE_LEVEL))
    with (Z.max 0 (Z.min requested MAX_NICE_LEVEL)); [done|].
  unfold MAX_NICE_LEVEL, py_len. simpl. lia.
Qed.

(** Level [L] disables exactly the first [L] features, and every feature has
    a flag. *)
Lemma resolve_nice_flags_at (level : Z) :
  level ∈ [0; 1; 2; 3; 4; 5; 6] →
  (resolve_nice_flags level).1 = level ∧
  (∀ (i : nat) name, feature_names !! i = Some name →
     (resolve_nice_flags level).2 !! name
     = Some (bool_decide (Z.of_nat i + 1 ≤ level))) ∧
  disabled_set (resolve_nice_flags level).2
  = list_to_set (take (Z.to_nat level) feature_names).
Proof.
  intros Hl.
  assert (∀ (i : nat) name, feature_names !! i = Some name →
            (i, name) ∈ [(0%nat, "disable_font_size_animation");
                         (1%nat, "disable_micro_jitter");
                         (2%nat, "disable_per_glyph_opacity");
                         (3%nat, "disable_fill_opacity_pulse");
                         (4%nat, "disable_trail_filter");
                         (5%nat, "disable_lightning")]) as Hnames.
  { intros i name Hi.
    do 6 (destruct i as [|i];
          [injection Hi as <-;
           repeat first [apply list_elem_of_here | apply list_elem_of_further]|]).
    discriminate. }
  repeat (apply elem_of_cons in Hl as [->|Hl]); [..|by apply elem_of_nil in Hl];
    (split; [done|]); (split; [|decide_by_compute]);
    intros i name Hi; apply Hnames in Hi;
    repeat (apply elem_of_cons in Hi as [[= -> ->]|Hi]);
    try (by apply elem_of_nil in Hi); by vm_compute.
Qed.

(** C2: the quality-dial resolver.  The requested level is clamped into
    [[0, N]], with [N] the number of feature steps; feature [i] (counted from
    one, in declared order) is disabled iff the clamped level is at least
    [i]; the disabled set at a level is included in the disabled set at the
    next level; level [0] disables nothing and level [N] disables every
    feature. *)
Theorem resolve_nice_flags_monotonic (requested : Z) :
  let N := MAX_NICE_LEVEL in
  let level := (resolve_nice_flags requested).1 in
  let flags := (resolve_nice_flags requested).2 in
  N = py_len NICE_FEATURE_STEPS ∧
  level = Z.max 0 (Z.min requested N) ∧
  0 ≤ level ≤ N ∧
  (∀ (i : nat) name description,
     NICE_FEATURE_STEPS !! i = Some (name, description) →
     flags !! name = Some (bool_decide (Z.of_nat i + 1 ≤ level))) ∧
  disabled_set flags ⊆ disabled_set (resolve_nice_flags (requested + 1)).2 ∧
  disabled_set (resolve_nice_flags 0).2 = ∅ ∧
  disabled_set (resolve_nice_flags N).2 = list_to_set NICE_FEATURE_STEPS.*1.
Proof.
  intros N level flags.
  pose proof (clamped_level_cases requested) as Hc.
  pose proof (clamped_level_cases (requested + 1)) as Hc'.
  cbv zeta in Hc, Hc'.
  destruct (resolve_nice_flags_at _ Hc) as (Hlevel & Hflags & Hset).
  destruct (resolve_nice_flags_at _ Hc') as (_ & _ & Hset').
  rewrite <- resolve_nice_flags_clamped in Hlevel, Hflags, Hset, Hset'.
  fold level flags in Hlevel, Hflags, Hset. fold N in Hlevel, Hflags, Hset, Hset'.
  split; [done|]. split; [done|].
  assert (N = 6) as HN by done.
  split; [lia|].
  split.
  { intros i name description Hi. rewrite Hlevel. apply Hflags.
    unfold feature_names. by rewrite list_lookup_fmap, Hi. }
  split.
  { rewrite Hset, Hset'. intros name Hin.
    apply elem_of_list_to_set in Hin. apply elem_of_list_to_set.
    apply list_elem_of_lookup in Hin as [i Hi].
    apply lookup_take_Some in Hi as [Hi Hlt].
    apply list_elem_of_lookup. exists i.
    apply lookup_take_Some. split; [done|].
    lia. }
  split; decide_by_compute.
Qed.

(** C7: the documented default layout.  Twelve regular and twelve irregular
    columns with 22 glyphs per strand give 24 columns, a span width of
    [max(500, 23 * 42) = 966], which with the zero edge margin is also the
    canvas width, and 22 glyphs in every column. *)
Theorem build_columns_default_layout `{Random G} :
  ∃ columns,
    build_columns 22 22 12 12 = Ok (columns, 966%float) ∧
    length columns = 24%nat ∧
    span_width_of 12 12 = Ok 966%float ∧
    py_fmax 500 (23 * 42) = 966%float ∧
    (966 + 2 * EDGE_MARGIN = 966)%float ∧
    Forall (λ col, py_len (col_glyphs col) = 22) columns.
Proof.
  eexists. split; [by vm_compute|].
  split; [done|]. split; [by vm_compute|]. split; [by vm_compute|].
  split; [by vm_compute|].
  repeat constructor.
Qed.

(** ** The animation parameter synthesizer *)

Lemma list_comp_lookup {A B} (f : A → result B) (l : list A) (r : list B) :
  list_comp f l = Ok r →
  length r = length l ∧
  ∀ (i : nat) a, l !! i = Some a → ∃ b, f a = Ok b ∧ r !! i = Some b.
Proof.
  revert r. induction l as [|a l IH]; intros r Hr.
  - injection Hr as <-. split; [done|]. intros i a Hi.
    by rewrite lookup_nil in Hi.
  - cbn [list_comp] in Hr.
    apply bind_inv in Hr as (b & Hb & Hr).
    apply bind_inv in Hr as (bs & Hbs & Hr). injection Hr as <-.
    destruct (IH _ Hbs) as [Hlen Hlook].
    split; [cbn [length]; lia|].
    intros [|i] a' Hi.
    + injection Hi as <-. by exists b.
    + by apply Hlook.
Qed.

Lemma py_enumerate_lookup {A} (start : Z) (l : list A) (i : nat) (a : A) :
  l !! i = Some a → py_enumerate start l !! i = Some (start + Z.of_nat i, a).
Proof.
  intros Hi. unfold py_enumerate.
  apply lookup_zip_with_Some. exists (start + Z.of_nat i), a.
  split; [done|]. split; [|done].
  apply lookup_seqZ. split; [done|].
  apply lookup_lt_Some in Hi. unfold py_len. lia.
Qed.

Lemma flag_inv (nice_flags : gmap string bool) (name : string) (b : bool) :
  flag nice_flags name = Ok b → nice_flags !! name = Some b.
Proof. unfold flag. destruct (nice_flags !! name); by intros [= ->]. Qed.

(** The [text] element of a glyph, read off the flags. *)
Lemma glyph_text_inv (nice_flags : gmap string bool) (t : glyph_timing)
    (char : string) (size : Z) (e : element) :
  glyph_text nice_flags t char size = Ok e →
  ∃ (no_fill no_opacity no_size no_jitter : bool) (y font_size : string),
    nice_flags !! "disable_fill_opacity_pulse" = Some no_fill ∧
    nice_flags !! "disable_per_glyph_opacity" = Some no_opacity ∧
    nice_flags !! "disable_font_size_animation" = Some no_size ∧
    nice_flags !! "disable_micro_jitter" = Some no_jitter ∧
    fmt_num_int (base_y t) = Ok y ∧
    fmt_num_int size = Ok font_size ∧
    e = Element "text"
          (base_text_attrs y font_size (start_translation t)
           ++ (if no_opacity then [("opacity", fmt_num (peak_opacity t))] else [])
           ++ (if no_fill then [("fill-opacity", fill_static t)] else []))
          (Some char)
          ([fall_animation (start_translation t) (end_translation t)
                           (fall_dur t) (fall_begin t)]
           ++ (if no_fill then []
               else [fill_opacity_animation (gt_pattern t) (fill_begin t)])
           ++ (if no_opacity then []
               else [opacity_animation (per_glyph_opacity t) (opacity_dur t)
                                       (opacity_begin t)])
           ++ (if no_size then []
               else [font_size_animation (gt_pattern t) (scale_values t)
                                         (size_begin t)])
           ++ (if no_jitter then []
               else [jitter_animation (gt_pattern t) (jitter_begin t)])).
Proof.
  unfold glyph_text, text_attrs_of. intros He.
  apply bind_inv in He as (attrs & Hattrs & He).
  apply bind_inv in Hattrs as (y & Hy & Hattrs).
  apply bind_inv in Hattrs as (font_size & Hfs & Hattrs).
  apply bind_inv in Hattrs as (no_opacity & Hop & Hattrs).
  apply bind_inv in Hattrs as (no_fill & Hfill & Hattrs).
  rewrite Hfill, Hop in He. cbn [mbind result_bind] in He.
  apply bind_inv in He as (no_size & Hsize & He).
  apply bind_inv in He as (no_jitter & Hjit & He).
  exists no_fill, no_opacity, no_size, no_jitter, y, font_size.
  apply flag_inv in Hop, Hfill, Hsize, Hjit.
  do 6 (split; [done|]).
  injection Hattrs as <-. injection He as <-.
  by destruct no_fill, no_opacity, no_size, no_jitter.
Qed.

Ltac bind_inv_all :=
  repeat match goal with
         | H : (_ ≫= _) = Ok _ |- _ =>
             let a := fresh "a" in
             let Ha := fresh "Ha" in
             apply bind_inv in H as (a & Ha & H)
         end.

(** The timing of a glyph, read off the column and the pattern: the fall
    duration and begin offset come from the column's, and the static
    fill-opacity is the mean of the pattern's fill keyframes. *)
Lemma glyph_timing_of_inv (col_idx : Z) (col : column) (ph : column_phase)
    (glyph_idx size : Z) (t : glyph_timing) :
  glyph_timing_of col_idx col ph glyph_idx size = Ok t →
  ∃ (pattern_idx : Z) (fcol fglyph g5 p3 g3 peak count mean : float)
    (peak_text : string) (values : list float),
    base_y t = 20 + glyph_idx * 40 ∧
    py_mod (glyph_idx + col_idx) (py_len patterns) = Ok pattern_idx ∧
    py_index patterns pattern_idx = Ok (gt_pattern t) ∧
    float_of_Z col_idx = Ok fcol ∧
    float_of_Z glyph_idx = Ok fglyph ∧
    float_of_Z (glyph_idx mod 5) = Ok g5 ∧
    float_of_Z (pattern_idx mod 3) = Ok p3 ∧
    fall_dur t
    = (col_translate_dur col * (0.95 + 0.08 * g5 + 0.05 * p3)
       * VERTICAL_SPEED_FACTOR)%float ∧
    fall_begin t
    = (col_translate_begin col + column_anchor ph
       - (fcol * 0.18 + fglyph * 0.07) * MICRO_PHASE_SCALE)%float ∧
    py_index (py_split ";" (col_opacity_values col)) 1 = Ok peak_text ∧
    py_float peak_text = Ok peak ∧
    float_of_Z (glyph_idx mod 3 - 1) = Ok g3 ∧
    peak_opacity t
    = py_fmin 0.98 (py_fmax 0.4 (peak * (1.0 + 0.08 * g3)))%float ∧
    list_comp py_float (py_split ";" (pat_fill_values (gt_pattern t)))
    = Ok values ∧
    float_of_Z (py_len values) = Ok count ∧
    py_fdiv (py_sum values) count = Ok mean ∧
    fill_static t = fmt_num mean.
Proof.
  unfold glyph_timing_of. intros Ht. bind_inv_all.
  injection Ht as <-. cbn [base_y gt_pattern fall_dur fall_begin peak_opacity
                                 fill_static].
  eexists _, _, _, _, _, _, _, _, _, _, _.
  repeat (split; [first [eassumption | reflexivity]|]).
  reflexivity.
Qed.

(** Every glyph of every column has its [text] element in the glyph layer, at
    the glyph's position in the column's group. *)
Lemma build_matrix_rain_inv (columns : list column)
    (nice_flags : gmap string bool) (rain : element) :
  build_matrix_rain columns nice_flags = Ok rain →
  ∀ (col_idx glyph_idx : nat) col char size,
    columns !! col_idx = Some col →
    col_glyphs col !! glyph_idx = Some (char, size) →
    ∃ ph t e texts,
      column_phase_of (Z.of_nat col_idx) col = Ok ph ∧
      glyph_timing_of (Z.of_nat col_idx) col ph (Z.of_nat glyph_idx) size = Ok t ∧
      glyph_text nice_flags t char size = Ok e ∧
      rain_texts rain !! col_idx = Some texts ∧
      texts !! glyph_idx = Some e.
Proof.
  unfold build_matrix_rain. intros Hrain col_idx glyph_idx col char size Hcol Hglyph.
  apply bind_inv in Hrain as (groups & Hgroups & Hrain). injection Hrain as <-.
  apply list_comp_lookup in Hgroups as [_ Hgroups].
  destruct (Hgroups col_idx _ (py_enumerate_lookup 0 _ _ _ Hcol))
    as (group & Hgroup & Hlook).
  rewrite Z.add_0_l in Hgroup. unfold rain_column in Hgroup.
  apply bind_inv in Hgroup as (no_trail & _ & Hgroup).
  apply bind_inv in Hgroup as (ph & Hph & Hgroup).
  apply bind_inv in Hgroup as (texts & Htexts & Hgroup). injection Hgroup as <-.
  apply list_comp_lookup in Htexts as [_ Htexts].
  destruct (Htexts glyph_idx _ (py_enumerate_lookup 0 _ _ _ Hglyph))
    as (e & He & Hlook').
  rewrite Z.add_0_l in He. unfold rain_glyph in He.
  apply bind_inv in He as (t & Ht & He).
  exists ph, t, e, texts. do 3 (split; [done|]). split; [|done].
  unfold rain_texts. cbn [children]. rewrite list_lookup_fmap, Hlook.
  cbn [fmap option_fmap option_map children list_fmap concat].
  by rewrite app_nil_r.
Qed.



(** Membership of an animation in a list of animations given by the flags.
    The animations differ in their literal attributes, so an equation between
    two different ones is refuted by [discriminate]. *)
Ltac refute_membership H :=
  rewrite ?elem_of_cons, ?elem_of_nil in H;
  repeat match type of H with _ ∨ _ => destruct H as [H|H] end;
  first [discriminate H | contradiction].

Ltac gated_membership :=
  match goal with
  | |- _ ∈ _ ↔ ?b = false =>
      split;
      [ intros Hin;
        repeat match goal with b : bool |- _ => destruct b end;
        first [reflexivity | exfalso; cbn [app] in Hin; refute_membership Hin]
      | intros ->;
        repeat match goal with b : bool |- _ => destruct b end;
        cbn [app]; rewrite ?elem_of_cons;
        repeat first [left; reflexivity | right] ]
  end.




(** ** The column layout engine *)

(** The generator always returns, with [max(0, target_count)] glyphs, each
    from the base list or the extension cycle. *)
Lemma generate_glyph_sequence_total (seed : Z) (base : list glyph) (target : Z) :
  ∃ glyphs,
    generate_glyph_sequence seed base target = Ok glyphs ∧
    py_len glyphs = Z.max 0 target ∧
    Forall (λ g, g ∈ base ++ extended_cycle seed) glyphs.
Proof.
  destruct (Z.le_gt_cases target 0) as [Hle|Hpos].
  - exists []. unfold generate_glyph_sequence.
    rewrite (proj2 (Z.leb_le target 0) Hle).
    split; [done|]. split; [unfold py_len; cbn [length]; lia|]. constructor.
  - destruct (Z.le_gt_cases target (py_len base)) as [Hin|Hout].
    + exists (take (Z.to_nat target) base). unfold generate_glyph_sequence.
      rewrite (proj2 (Z.leb_gt target 0)) by lia. unfold py_slice_to.
      assert (py_len (take (Z.to_nat target) base) = target) as Hl.
      { unfold py_len in *. rewrite length_take. lia. }
      rewrite Hl, Z.eqb_refl. split; [done|]. split; [lia|].
      apply Forall_forall. intros g Hg. apply elem_of_app. left.
      apply elem_of_take in Hg as (i & Hi & _). by eapply list_elem_of_lookup_2.
    + destruct (generate_glyph_sequence_extend seed base target ltac:(lia))
        as (ext & Hgen & Hl & Hk).
      exists (base ++ ext). split; [done|].
      split; [rewrite py_len_app; lia|].
      apply Forall_app. split.
      * apply Forall_forall. intros g Hg. apply elem_of_app. by left.
      * apply Forall_forall. intros g Hg. apply elem_of_app. right.
        apply list_elem_of_lookup in Hg as [k Hk'].
        rewrite Hk in Hk' by (by eapply lookup_lt_Some).
        by eapply list_elem_of_lookup_2.
Qed.

Lemma for_each_steps {A C S} (body : list C * S → A → result (list C * S))
    (step : S → A → C → S → Prop) :
  (∀ cols s a r, body (cols, s) a = Ok r →
                 ∃ c s', r = (cols ++ [c], s') ∧ step s a c s') →
  ∀ l cols s cols' s',
    for_each body l (cols, s) = Ok (cols', s') →
    ∃ new, cols' = cols ++ new ∧ steps step s l new s'.
Proof.
  intros Hbody. induction l as [|a l IH]; intros cols s cols' s' Hloop.
  - injection Hloop as <- <-. exists []. rewrite app_nil_r.
    split; [done|]. constructor.
  - cbn [for_each] in Hloop. apply bind_inv in Hloop as (r & Hr & Hloop).
    destruct (Hbody _ _ _ _ Hr) as (c & s1 & -> & Hstep).
    destruct (IH _ _ _ _ Hloop) as (new & -> & Hsteps).
    exists (c :: new). rewrite <- app_assoc. split; [done|].
    by econstructor.
Qed.

Lemma steps_length {A C S} (step : S → A → C → S → Prop) s l cs s' :
  steps step s l cs s' → length cs = length l.
Proof. induction 1; cbn [length]; lia. Qed.

Lemma steps_impl {A C S} (step step' : S → A → C → S → Prop) s l cs s' :
  (∀ s a c s', step s a c s' → step' s a c s') →
  steps step s l cs s' → steps step' s l cs s'.
Proof. intros Himpl. induction 1; econstructor; eauto. Qed.

Lemma steps_list_comp {A B C S} (step : S → A → C → S → Prop)
    (f : A → result B) (g : C → B) s l cs s' :
  (∀ s a c s', step s a c s' → f a = Ok (g c)) →
  steps step s l cs s' → list_comp f l = Ok (g <$> cs).
Proof.
  intros Hf. induction 1 as [|s a c s1 l cs s2 Hstep _ IH]; [done|].
  cbn [list_comp]. rewrite (Hf _ _ _ _ Hstep). cbn [mbind result_bind].
  by rewrite IH.
Qed.

Lemma steps_Forall {A C S} (step : S → A → C → S → Prop) (P : C → Prop)
    s l cs s' :
  (∀ s a c s', step s a c s' → P c) →
  steps step s l cs s' → Forall P cs.
Proof. intros HP. induction 1; constructor; eauto. Qed.

Lemma list_comp_fmap {A A' B} (f : A' → result B) (g : A → A') (l : list A) :
  list_comp f (g <$> l) = list_comp (λ a, f (g a)) l.
Proof. induction l as [|a l IH]; [done|]. cbn [fmap list_fmap list_comp]. by rewrite <- IH. Qed.

Lemma py_enumerate_snd {A} (start : Z) (l : list A) :
  (py_enumerate start l).*2 = l.
Proof.
  unfold py_enumerate. apply snd_zip. rewrite length_seqZ. unfold py_len. lia.
Qed.

(** *** One iteration of each loop *)

Section layout_steps.
Context `{Random G}.

Lemma py_index_elem_of {A} (l : list A) (i : Z) (a : A) :
  py_index l i = Ok a → a ∈ l.
Proof.
  unfold py_index. cbv zeta.
  destruct (_ <? 0); [discriminate|].
  destruct (l !! _) eqn:E; [|discriminate].
  intros [= <-]. by eapply list_elem_of_lookup_2.
Qed.

Lemma regular_column_step (min_gps max_gps regular_count : Z)
    (span_width : float) cols rng idx r :
  regular_column min_gps max_gps regular_count span_width (cols, rng) idx = Ok r →
  ∃ c rng',
    r = (cols ++ [c], rng') ∧
    column_step min_gps max_gps (regular_x regular_count span_width idx)
                idx rng c rng'.
Proof.
  unfold regular_column. intros Hr. bind_inv_all.
  destruct a2 as [target_count rng']. bind_inv_all. injection Hr as <-.
  eexists _, rng'. split; [done|].
  exists a0, target_count.
  split; [by eapply py_index_elem_of|]. by repeat split.
Qed.

Lemma irregular_column_step (min_gps max_gps regular_count : Z)
    (span_width : float) cols rng idx offset_idx r :
  irregular_column min_gps max_gps regular_count span_width (cols, rng)
                   (idx, offset_idx) = Ok r →
  ∃ c rng',
    r = (cols ++ [c], rng') ∧
    column_step min_gps max_gps (irregular_x span_width offset_idx)
                (idx + regular_count) rng c rng'.
Proof.
  unfold irregular_column. intros Hr. bind_inv_all.
  destruct a5 as [target_count rng']. bind_inv_all. injection Hr as <-.
  eexists _, rng'. split; [done|].
  exists a0, target_count.
  split; [by eapply py_index_elem_of|]. by repeat split.
Qed.

End layout_steps.

(** *** The two passes *)

Section layout.
Context `{Random G}.

Lemma column_step_x (min_gps max_gps : Z) (x_of : result float) (seed : Z)
    (rng : G) (c : column) (rng' : G) :
  column_step min_gps max_gps x_of seed rng c rng' → x_of = Ok (col_x c).
Proof. by intros (template & target & _ & Hx & _). Qed.

(** The placement pass: the regular columns then the irregular ones, one
    draw of the generator per column when the glyph bounds differ. *)
Lemma place_columns_inv (min_gps max_gps regular_count irregular_count : Z)
    (placed : list column) (span_width : float) (rng' : G) :
  place_columns min_gps max_gps regular_count irregular_count
  = Ok (placed, span_width, rng') →
  ∃ (irregular_indices : list Z) (regular irregular : list column) (rng1 : G),
    span_width_of regular_count irregular_count = Ok span_width ∧
    select_irregular_indices (Z.max 0 irregular_count) = Ok irregular_indices ∧
    placed = regular ++ irregular ∧
    steps (λ rng idx c rng',
             column_step min_gps max_gps
               (regular_x regular_count span_width idx) idx rng c rng')
          (random_seed 12648430) (py_range (Z.max 0 regular_count))
          regular rng1 ∧
    steps (λ rng (entry : Z * Z) c rng',
             column_step min_gps max_gps
               (irregular_x span_width entry.2) (entry.1 + regular_count)
               rng c rng')
          rng1 (py_enumerate 0 irregular_indices) irregular rng'.
Proof.
  unfold place_columns. intros Hp.
  apply bind_inv in Hp as (span & Hspan & Hp).
  apply bind_inv in Hp as ([regular rng1] & Hreg & Hp).
  apply bind_inv in Hp as (idxs & Hidxs & Hp).
  apply bind_inv in Hp as ([columns rng2] & Hirr & Hp).
  injection Hp as <- <- <-.
  apply (for_each_steps _
           (λ rng idx c rng',
              column_step min_gps max_gps
                (regular_x regular_count span idx) idx rng c rng'))
    in Hreg as (new & -> & Hreg);
    [|intros cols s a r Hr; by apply regular_column_step in Hr].
  apply (for_each_steps _
           (λ rng (entry : Z * Z) c rng',
              column_step min_gps max_gps
                (irregular_x span entry.2) (entry.1 + regular_count)
                rng c rng'))
    in Hirr as (new' & -> & Hirr);
    [|intros cols s [idx offset_idx] r Hr;
      by apply irregular_column_step in Hr].
  exists idxs, new, new', rng1. by rewrite app_nil_l.
Qed.

(** The raw positions depend on the counts alone. *)
Lemma place_columns_xs (min_gps max_gps regular_count irregular_count : Z)
    (placed : list column) (span_width : float) (rng' : G) :
  place_columns min_gps max_gps regular_count irregular_count
  = Ok (placed, span_width, rng') →
  placed_xs regular_count irregular_count = Ok (col_x <$> placed, span_width).
Proof.
  intros Hp.
  apply place_columns_inv in Hp
    as (idxs & regular & irregular & rng1 & Hspan & Hidxs & -> & Hreg & Hirr).
  unfold placed_xs. rewrite Hspan. cbn [mbind result_bind].
  rewrite (steps_list_comp _ _ col_x _ _ _ _
             ltac:(intros ????; apply column_step_x) Hreg).
  cbn [mbind result_bind].
  rewrite Hidxs. cbn [mbind result_bind].
  rewrite <- (py_enumerate_snd 0 idxs) at 1.
  rewrite list_comp_fmap.
  rewrite (steps_list_comp (B:=float) _ (λ entry : Z * Z, irregular_x span_width entry.2)
             col_x _ _ _ _
             ltac:(intros ????; apply column_step_x) Hirr).
  cbn [mbind result_bind].
  by rewrite fmap_app.
Qed.

Lemma normalized_positions_length (span_width : float) (xs positions : list float) :
  normalized_positions span_width xs = Ok positions →
  length positions = length xs.
Proof.
  unfold normalized_positions. intros Hn.
  apply bind_inv in Hn as (min_x & _ & Hn).
  apply bind_inv in Hn as (max_x & _ & Hn).
  destruct (max_x =? min_x)%float.
  - by apply list_comp_lookup in Hn as [? _].
  - apply bind_inv in Hn as (scale & _ & Hn). injection Hn as <-.
    by rewrite length_fmap.
Qed.

(** The renormalisation pass acts on the positions alone. *)
Lemma renormalize_xs_spec (span_width : float) (columns columns' : list column)
    (canvas_width : float) :
  renormalize span_width columns = Ok (columns', canvas_width) →
  renormalize_xs span_width (col_x <$> columns)
  = Ok (col_x <$> columns', canvas_width).
Proof.
  unfold renormalize, renormalize_xs.
  destruct columns as [|c columns]; [by intros [= <- <-]|].
  cbn [fmap list_fmap]. change (col_x c :: (col_x <$> columns))
    with (col_x <$> c :: columns).
  generalize (c :: columns). clear c columns. intros columns Hr.
  apply bind_inv in Hr as (positions & Hpos & Hr). injection Hr as <- <-.
  rewrite Hpos. cbn [mbind result_bind]. do 2 f_equal.
  apply normalized_positions_length in Hpos. rewrite length_fmap in Hpos.
  clear -Hpos. revert positions Hpos.
  induction columns as [|c columns IH]; intros [|p positions] Hlen;
    try done.
  cbn [zip_with fmap list_fmap]. f_equal. apply IH.
  cbn [length] in Hlen. lia.
Qed.

Lemma build_columns_inv (min_gps max_gps regular_count irregular_count : Z)
    (columns : list column) (canvas_width : float) :
  build_columns min_gps max_gps regular_count irregular_count
  = Ok (columns, canvas_width) →
  ∃ placed span_width rng',
    place_columns min_gps max_gps regular_count irregular_count
    = Ok (placed, span_width, rng') ∧
    renormalize span_width placed = Ok (columns, canvas_width).
Proof.
  unfold build_columns. intros Hb.
  apply bind_inv in Hb as ([[placed span_width] rng'] & Hp & Hb).
  by exists placed, span_width, rng'.
Qed.

(** The final positions and the canvas width depend on the counts alone:
    not on the glyph bounds, and not on the generator. *)
Lemma build_columns_xs (min_gps max_gps regular_count irregular_count : Z)
    (columns : list column) (canvas_width : float) :
  build_columns min_gps max_gps regular_count irregular_count
  = Ok (columns, canvas_width) →
  final_xs regular_count irregular_count = Ok (col_x <$> columns, canvas_width).
Proof.
  intros Hb. apply build_columns_inv in Hb as (placed & span & rng' & Hp & Hr).
  unfold final_xs. rewrite (place_columns_xs _ _ _ _ _ _ _ Hp).
  cbn [mbind result_bind fst snd]. by apply renormalize_xs_spec.
Qed.

End layout.

(** *** Renormalisation *)

Lemma foldl_choice {A} (f : A → A → A) (x : A) (l : list A) :
  (∀ a b, f a b = a ∨ f a b = b) → foldl f x l ∈ x :: l.
Proof.
  intros Hf. revert x. induction l as [|y l IH]; intros x.
  - cbn [foldl]. apply list_elem_of_here.
  - cbn [foldl]. specialize (IH (f x y)).
    apply elem_of_cons in IH as [->|IH].
    + destruct (Hf x y) as [->| ->];
        [apply list_elem_of_here|apply list_elem_of_further, list_elem_of_here].
    + by do 2 apply list_elem_of_further.
Qed.

Lemma py_min_list_elem_of (xs : list float) (m : float) :
  py_min_list xs = Ok m → m ∈ xs.
Proof.
  destruct xs as [|x xs]; [discriminate|]. intros [= <-].
  apply foldl_choice. intros a b. unfold py_fmin. destruct (b <? a)%float; auto.
Qed.

Lemma py_max_list_elem_of (xs : list float) (m : float) :
  py_max_list xs = Ok m → m ∈ xs.
Proof.
  destruct xs as [|x xs]; [discriminate|]. intros [= <-].
  apply foldl_choice. intros a b. unfold py_fmax. destruct (a <? b)%float; auto.
Qed.

Lemma renormalize_inv (span_width : float)
    (placed columns : list column) (canvas_width : float) :
  renormalize span_width placed = Ok (columns, canvas_width) →
  length columns = length placed ∧
  (placed = [] → canvas_width = BASE_CANVAS_WIDTH) ∧
  (placed ≠ [] →
   canvas_width = (span_width + 2 * EDGE_MARGIN)%float ∧
   ∃ min_x max_x,
     py_min_list (col_x <$> placed) = Ok min_x ∧
     py_max_list (col_x <$> placed) = Ok max_x ∧
     min_x ∈ col_x <$> placed ∧
     max_x ∈ col_x <$> placed ∧
     ∀ (i : nat) c,
       placed !! i = Some c →
       ∃ new_x,
         columns !! i = Some (set_x c (new_x + EDGE_MARGIN)) ∧
         if (max_x =? min_x)%float then py_fdiv span_width 2 = Ok new_x
         else ∃ scale,
             py_fdiv span_width (max_x - min_x) = Ok scale ∧
             new_x = ((col_x c - min_x) * scale)%float).
Proof.
  unfold renormalize. destruct placed as [|c0 placed'] eqn:Eplaced.
  { intros [= <- <-]. split; [done|]. split; [done|]. done. }
  rewrite <- Eplaced. intros Hr.
  apply bind_inv in Hr as (positions & Hpos & Hr). injection Hr as <- <-.
  pose proof (normalized_positions_length _ _ _ Hpos) as Hlen.
  rewrite length_fmap in Hlen.
  split; [rewrite length_zip_with; lia|].
  split; [by rewrite Eplaced|]. intros _. split; [done|].
  unfold normalized_positions in Hpos.
  apply bind_inv in Hpos as (min_x & Hmin & Hpos).
  apply bind_inv in Hpos as (max_x & Hmax & Hpos).
  exists min_x, max_x. split; [done|]. split; [done|].
  split; [by apply py_min_list_elem_of|].
  split; [by apply py_max_list_elem_of|].
  intros i c Hc.
  destruct (max_x =? min_x)%float.
  - apply list_comp_lookup in Hpos as [_ Hpos].
    destruct (Hpos i (col_x c)) as (new_x & Hnew & Hi).
    { by rewrite list_lookup_fmap, Hc. }
    exists new_x. split; [|done].
    apply lookup_zip_with_Some. by exists c, new_x.
  - apply bind_inv in Hpos as (scale & Hscale & Hpos). injection Hpos as <-.
    eexists. split; [|by exists scale].
    apply lookup_zip_with_Some. eexists c, _. split; [done|]. split; [done|].
    by rewrite !list_lookup_fmap, Hc.
Qed.




(** *** The single regular column *)

Lemma steps_singleton_inv {A C S} (step : S → A → C → S → Prop) s a cs s' :
  steps step s [a] cs s' → ∃ c, cs = [c] ∧ step s a c s'.
Proof.
  intros Hs. inversion Hs as [|? ? c s1 ? cs' ? Hstep Hrest]; subst.
  inversion Hrest; subst. by exists c.
Qed.

(** With one regular column and no irregular column the counts below zero
    behave as zero. *)
Lemma regular_column_at_midpoint_nonpositive (irregular_count : Z) :
  irregular_count ≤ 0 →
  regular_column_at_midpoint irregular_count = regular_column_at_midpoint 0.
Proof.
  intros Hle. unfold regular_column_at_midpoint, final_xs, placed_xs, span_width_of.
  replace (Z.max (1 + irregular_count) 1) with (Z.max (1 + 0) 1) by lia.
  by replace (Z.max 0 irregular_count) with (Z.max 0 0) by lia.
Qed.

(** The exhaustive check of the counts from 2 to 500. *)
Lemma regular_column_at_midpoint_range :
  forallb regular_column_at_midpoint (seqZ 2 499) = true.
Proof. by vm_compute. Qed.

Lemma regular_column_at_midpoint_spec (irregular_count : Z) :
  irregular_count ≠ 1 → irregular_count ≤ 500 →
  regular_column_at_midpoint irregular_count = true.
Proof.
  intros Hne Hle. destruct (Z.le_gt_cases irregular_count 0) as [H0|H0].
  - rewrite regular_column_at_midpoint_nonpositive by done. by vm_compute.
  - pose proof regular_column_at_midpoint_range as Hall.
    rewrite forallb_forall in Hall. apply Hall.
    apply list_elem_of_In, elem_of_seqZ. lia.
Qed.




(** *** The sampled glyph counts *)

Section sampling.
Context `{Random G}.

Lemma randint_stream_app (a b : Z) (n m : nat) (rng : G) :
  randint_stream a b (n + m) rng
  = ((randint_stream a b n rng).1
       ++ (randint_stream a b m (randint_stream a b n rng).2).1,
     (randint_stream a b m (randint_stream a b n rng).2).2).
Proof.
  revert rng. induction n as [|n IH]; intros rng.
  - cbn [randint_stream Nat.add fst snd app]. by destruct (randint_stream a b m rng).
  - cbn [randint_stream Nat.add].
    destruct (random_randint a b rng) as [v rng1].
    rewrite IH. by destruct (randint_stream a b n rng1) as [vs rng2].
Qed.

(** A loop of column steps with distinct glyph bounds draws once per
    column, in order, and each column gets as many glyphs as drawn. *)
Lemma steps_randint_stream {A} (min_gps max_gps : Z)
    (x_of : A → result float) (seed : A → Z) rng l cs rng' :
  min_gps ≠ max_gps →
  steps (λ rng a c rng',
           column_step min_gps max_gps (x_of a) (seed a) rng c rng')
        rng l cs rng' →
  (λ c, py_len (col_glyphs c)) <$> cs
  = Z.max 0 <$> (randint_stream min_gps max_gps (length l) rng).1 ∧
  rng' = (randint_stream min_gps max_gps (length l) rng).2.
Proof.
  intros Hne. induction 1 as [|s a c s1 l cs s2 Hstep _ [IHc IHr]]; [done|].
  destruct Hstep as (template & target & _ & _ & Hpick & Hgen & _).
  unfold pick_glyph_target in Hpick.
  rewrite (proj2 (Z.eqb_neq _ _) Hne) in Hpick.
  unfold py_randint in Hpick. destruct (max_gps <? min_gps); [done|].
  injection Hpick as Hpick.
  destruct (generate_glyph_sequence_total (seed a) (col_glyphs template) target)
    as (glyphs & Hgen' & Hlen & _).
  rewrite Hgen in Hgen'. injection Hgen' as <-.
  cbn [length randint_stream fmap list_fmap]. rewrite Hpick.
  destruct (randint_stream min_gps max_gps (length l) s1) as [vs rng2].
  cbn [fst snd] in *. cbn [fmap list_fmap]. by rewrite Hlen, IHc, IHr.
Qed.

(** Renormalisation changes the positions only. *)
Lemma renormalize_glyphs (span_width : float) (placed columns : list column)
    (canvas_width : float) :
  renormalize span_width placed = Ok (columns, canvas_width) →
  col_glyphs <$> columns = col_glyphs <$> placed.
Proof.
  intros Hr. apply renormalize_inv in Hr as (Hlen & _ & Hne).
  destruct placed as [|c0 placed'] eqn:E.
  { destruct columns; [done|]. cbn [length] in Hlen. lia. }
  rewrite <- E in *. destruct Hne as (_ & min_x & max_x & _ & _ & _ & _ & Hcols).
  { by rewrite E. }
  apply list_eq. intros i. rewrite !list_lookup_fmap.
  destruct (placed !! i) as [c|] eqn:Hc.
  - destruct (Hcols i c Hc) as (new_x & -> & _). done.
  - apply lookup_ge_None in Hc. rewrite <- Hlen in Hc.
    apply lookup_ge_None in Hc. by rewrite Hc.
Qed.

End sampling.

(** C9: a run is reproducible.  The generator is seeded with the constant
    [0xC0FFEE] at the start of [build_columns], so with distinct glyph bounds
    the glyph counts of the columns, regular columns first, are the
    successive values of [randint(min_gps, max_gps)] from that seed (a
    non-positive value giving an empty column), and any second run with the
    same parameters returns the same columns and canvas width. *)
Theorem sampled_counts_reproducible `{Random G}
    (min_gps max_gps regular_count irregular_count : Z)
    (columns : list column) (canvas_width : float) :
  build_columns min_gps max_gps regular_count irregular_count
  = Ok (columns, canvas_width) →
  min_gps ≠ max_gps →
  (λ c, py_len (col_glyphs c)) <$> columns
  = Z.max 0 <$> (randint_stream min_gps max_gps (length columns)
                                (random_seed 12648430)).1 ∧
  ∀ columns' canvas_width',
    build_columns min_gps max_gps regular_count irregular_count
    = Ok (columns', canvas_width') →
    columns' = columns ∧ canvas_width' = canvas_width.
Proof.
  intros Hb Hne.
  split; [|intros c' w' Hb'; rewrite Hb in Hb'; by injection Hb' as <- <-].
  apply build_columns_inv in Hb as (placed & span & rng' & Hp & Hr).
  pose proof (renormalize_glyphs _ _ _ _ Hr) as Hglyphs.
  assert (length columns = length placed) as Hlen.
  { by apply renormalize_inv in Hr as (? & _). }
  apply place_columns_inv in Hp
    as (idxs & regular & irregular & rng1 & _ & _ & -> & Hreg & Hirr).
  pose proof (steps_length _ _ _ _ _ Hreg) as Hl1.
  pose proof (steps_length _ _ _ _ _ Hirr) as Hl2.
  apply (steps_randint_stream _ _ _ (λ idx, idx)) in Hreg as [Hc1 Hr1]; [|done].
  apply (steps_randint_stream _ _ (λ e : Z * Z, irregular_x span e.2)
           (λ e : Z * Z, e.1 + regular_count)) in Hirr as [Hc2 Hr2]; [|done].
  rewrite <- Hl1 in Hc1, Hr1. rewrite <- Hl2 in Hc2, Hr2.
  rewrite Hlen, length_app, randint_stream_app. cbn [fst].
  rewrite fmap_app, <- Hr1, <- Hc1, <- Hc2, <- fmap_app.
  change (λ c : column, py_len (col_glyphs c)) with (py_len ∘ col_glyphs).
  by rewrite !list_fmap_compose, Hglyphs.
Qed.

Lemma sampled_counts_reproducible_witness :
  ∃ columns canvas_width,
    build_columns (G:=Z) 3 9 2 2 = Ok (columns, canvas_width) ∧
    3 ≠ 9 ∧
    (λ c, py_len (col_glyphs c)) <$> columns
    = Z.max 0 <$> (randint_stream (G:=Z) 3 9 (length columns)
                                  (random_seed 12648430)).1 ∧
    ∀ columns' canvas_width',
      build_columns (G:=Z) 3 9 2 2 = Ok (columns', canvas_width') →
      columns' = columns ∧ canvas_width' = canvas_width.
Proof.
  eexists _, _. split; [vm_compute; reflexivity|]. split; [lia|].
  apply (sampled_counts_reproducible (G:=Z) 3 9 2 2);
    [vm_compute; reflexivity | lia].
Defined.

(** ** Binary64 arithmetic

    Facts about the kernel's floats, derived from the specification of their
    operations ([FloatAxioms]) over [SpecFloat]: a conversion or a difference
    that is not zero as a number is not zero as a float, which is what keeps
    the divisions of the layout engine from raising [ZeroDivisionError]. *)

Section binary64.

Local Abbreviation fexp := (SpecFloat.fexp prec emax).
Local Abbreviation emin := (SpecFloat.emin prec emax).

Lemma emin_value : emin = -1074.
Proof. reflexivity. Qed.

Lemma fexp_value (e : Z) : fexp e = Z.max (e - 53) (-1074).
Proof. reflexivity. Qed.

Lemma digits2_pos_log2 (p : positive) :
  Z.pos (digits2_pos p) = Z.log2 (Z.pos p) + 1.
Proof.
  induction p as [p IH|p IH|]; cbn [digits2_pos].
  - rewrite Pos2Z.inj_succ, IH. change (Z.pos p~1) with (2 * Z.pos p + 1).
    rewrite Z.log2_succ_double by lia. lia.
  - rewrite Pos2Z.inj_succ, IH. change (Z.pos p~0) with (2 * Z.pos p).
    rewrite Z.log2_double by lia. lia.
  - reflexivity.
Qed.

Lemma digits2_pos_bounds (p : positive) :
  2 ^ (Z.pos (digits2_pos p) - 1) ≤ Z.pos p < 2 ^ Z.pos (digits2_pos p).
Proof.
  rewrite digits2_pos_log2.
  pose proof (Z.log2_spec (Z.pos p) ltac:(lia)) as Hs.
  replace (Z.log2 (Z.pos p) + 1 - 1) with (Z.log2 (Z.pos p)) by lia.
  replace (Z.log2 (Z.pos p) + 1) with (Z.succ (Z.log2 (Z.pos p))) by lia.
  lia.
Qed.

Lemma shr_1_m (r : shr_record) :
  0 ≤ shr_m r → shr_m (shr_1 r) = shr_m r / 2.
Proof.
  destruct r as [m r s]. cbn [shr_m shr_1]. intros Hm.
  destruct m as [|[p|p|]|p]; cbn [shr_m]; try lia; try reflexivity.
  - change (Z.pos p~1) with (2 * Z.pos p + 1).
    apply Z.div_unique with 1; lia.
  - change (Z.pos p~0) with (2 * Z.pos p).
    apply Z.div_unique with 0; lia.
Qed.

Lemma iter_pos_shr_1_m (n : positive) (r : shr_record) :
  0 ≤ shr_m r →
  shr_m (SpecFloat.iter_pos shr_1 n r) = shr_m r / 2 ^ Z.pos n.
Proof.
  revert r. induction n as [n IH|n IH|]; intros r Hr; cbn [SpecFloat.iter_pos].
  - assert (0 ≤ shr_m (shr_1 r)) as H1
        by (rewrite shr_1_m by done; apply Z.div_pos; lia).
    assert (0 ≤ shr_m (SpecFloat.iter_pos shr_1 n (shr_1 r))) as H2
        by (rewrite IH by done; apply Z.div_pos; lia).
    rewrite IH, IH, shr_1_m by done.
    rewrite !Z.div_div by lia. f_equal.
    replace (Z.pos n~1) with (1 + Z.pos n + Z.pos n) by lia.
    rewrite !Z.pow_add_r by lia. lia.
  - assert (0 ≤ shr_m (SpecFloat.iter_pos shr_1 n r)) as H2
        by (rewrite IH by done; apply Z.div_pos; lia).
    rewrite IH, IH by done. rewrite Z.div_div by lia. f_equal.
    replace (Z.pos n~0) with (Z.pos n + Z.pos n) by lia.
    rewrite Z.pow_add_r by lia. lia.
  - by rewrite shr_1_m.
Qed.

(** Rounding a positive mantissa at an exponent at or above the minimal one
    leaves a positive mantissa. *)
Lemma shr_fexp_positive (m : positive) (e : Z) (l : location) :
  emin ≤ e →
  0 < shr_m (shr_fexp prec emax (Z.pos m) e l).1 ∧
  emin ≤ (shr_fexp prec emax (Z.pos m) e l).2.
Proof.
  intros He. unfold shr_fexp, shr. cbn [Zdigits2].
  rewrite fexp_value. rewrite emin_value in *.
  assert (shr_m (shr_record_of_loc (Z.pos m) l) = Z.pos m) as Hm
      by (by destruct l as [|[]]).
  pose proof (digits2_pos_bounds m) as Hd.
  set (d := Z.pos (digits2_pos m)) in *.
  destruct (Z.max (d + e - 53) (-1074) - e) as [|n|n] eqn:En; cbn [fst snd].
  - rewrite Hm. lia.
  - rewrite iter_pos_shr_1_m by (rewrite Hm; lia). rewrite Hm.
    split; [|lia].
    assert (Z.pos n = d - 53) as Hn by lia.
    apply Z.div_str_pos. split; [lia|].
    etransitivity; [|apply Hd].
    apply Z.pow_le_mono_r; lia.
  - rewrite Hm. lia.
Qed.

Lemma binary_round_aux_nonzero (s : bool) (m : positive) (e : Z) (l : location)
    (sz : bool) :
  emin ≤ e → binary_round_aux prec emax s (Z.pos m) e l ≠ S754_zero sz.
Proof.
  intros He. unfold binary_round_aux.
  destruct (shr_fexp_positive m e l He) as [Hm1 He1].
  destruct (shr_fexp prec emax (Z.pos m) e l) as [mrs1 e1]. cbn [fst snd] in *.
  assert (0 < round_nearest_even (shr_m mrs1) (loc_of_shr_record mrs1)) as Hr.
  { unfold round_nearest_even.
    destruct (loc_of_shr_record mrs1) as [|[]]; try lia.
    destruct (Z.even (shr_m mrs1)); lia. }
  destruct (round_nearest_even (shr_m mrs1) (loc_of_shr_record mrs1))
    as [|m2|m2]; try lia.
  destruct (shr_fexp_positive m2 e1 loc_Exact He1) as [Hm2 _].
  destruct (shr_fexp prec emax (Z.pos m2) e1 loc_Exact) as [mrs2 e2].
  cbn [fst snd] in *.
  destruct (shr_m mrs2); try lia.
  by destruct (e2 <=? emax - prec).
Qed.

Lemma binary_round_nonzero (s : bool) (m : positive) (e : Z) (sz : bool) :
  emin ≤ e → binary_round prec emax s m e ≠ S754_zero sz.
Proof.
  intros He. unfold binary_round, shl_align.
  destruct (fexp (Z.pos (digits2_pos m) + e) - e) as [|d|d] eqn:Ed;
    apply binary_round_aux_nonzero; try done.
  rewrite fexp_value in *. rewrite emin_value in *. lia.
Qed.

Lemma SFeqb_zero_false (x : spec_float) :
  (∀ sz, x ≠ S754_zero sz) → SFeqb x (S754_zero false) = false.
Proof.
  intros Hx. destruct x as [sz|s| |s m e]; try done.
  - by destruct (Hx sz).
  - by destruct s.
  - by destruct s.
Qed.

(** A non-zero integer below [2^63] converts to a non-zero float. *)
Lemma of_uint63_nonzero (n : Z) :
  0 < n < 2 ^ 63 → (of_uint63 (Uint63.of_Z n) =? 0)%float = false.
Proof.
  intros Hn. rewrite FloatAxioms.eqb_spec, of_uint63_spec.
  rewrite Uint63.of_Z_spec, Z.mod_small by (change Uint63.wB with (2 ^ 63); lia).
  change (Prim2SF 0) with (S754_zero false).
  apply SFeqb_zero_false. intros sz.
  destruct n as [|p|p]; try lia. cbn [binary_normalize].
  apply binary_round_nonzero. rewrite emin_value. lia.
Qed.

Lemma pos_iter_xO (m d : positive) :
  Z.pos (Pos.iter xO m d) = Z.pos m * 2 ^ Z.pos d.
Proof.
  induction d as [|d IH] using Pos.peano_ind.
  - cbn [Pos.iter]. lia.
  - rewrite Pos.iter_succ, Pos2Z.inj_xO, IH, Pos2Z.inj_succ, Z.pow_succ_r by lia.
    lia.
Qed.

Lemma shl_align_fst (m : positive) (e ez : Z) :
  ez ≤ e → Z.pos (shl_align m e ez).1 = Z.pos m * 2 ^ (e - ez).
Proof.
  intros Hle. unfold shl_align.
  destruct (ez - e) as [|d|d] eqn:Ed; cbn [fst]; try lia.
  - replace (e - ez) with 0 by lia. lia.
  - rewrite pos_iter_xO. f_equal. f_equal. lia.
Qed.

Lemma canonical_emin (m : positive) (e : Z) :
  canonical_mantissa prec emax m e = true →
  emin ≤ e ∧ e = Z.max (Z.pos (digits2_pos m) + e - 53) (-1074).
Proof.
  unfold canonical_mantissa. rewrite fexp_value, emin_value.
  intros Hc%Z.eqb_eq. lia.
Qed.

(** Two canonical mantissas that denote the same number are the same. *)
Lemma canonical_unique (m1 m2 : positive) (e1 e2 : Z) :
  canonical_mantissa prec emax m1 e1 = true →
  canonical_mantissa prec emax m2 e2 = true →
  e1 ≤ e2 →
  Z.pos m1 = Z.pos m2 * 2 ^ (e2 - e1) →
  e1 = e2 ∧ m1 = m2.
Proof.
  intros [_ H1]%canonical_emin [_ H2]%canonical_emin Hle Hm.
  assert (e1 = e2) as ->.
  { destruct (decide (e1 = e2)) as [|Hne]; [done|]. exfalso.
    assert (Z.pos (digits2_pos m1) = Z.pos (digits2_pos m2) + (e2 - e1)) as Hd.
    { rewrite !digits2_pos_log2, Hm, Z.log2_mul_pow2 by lia. lia. }
    lia. }
  split; [done|]. rewrite Z.sub_diag in Hm. lia.
Qed.

Lemma SFeqb_refl_finite (s : bool) (m : positive) (e : Z) :
  SFeqb (S754_finite s m e) (S754_finite s m e) = true.
Proof.
  unfold SFeqb, SFcompare. rewrite Z.compare_refl, Pos.compare_cont_refl.
  by destruct s.
Qed.

Lemma SFsub_nonzero (x y : spec_float) :
  valid_binary x = true →
  valid_binary y = true →
  SFeqb x y = false →
  SFeqb (SFsub prec emax x y) (S754_zero false) = false.
Proof.
  intros Hx Hy Hne.
  destruct x as [sx|sx| |sx mx ex], y as [sy|sy| |sy my ey];
    try done; try (by destruct sx); try (by destruct sy);
    try (by destruct sx, sy).
  cbn [SpecFloat.valid_binary] in Hx, Hy. unfold bounded in Hx, Hy.
  apply andb_prop in Hx as [Hx _]. apply andb_prop in Hy as [Hy _].
  destruct (canonical_emin _ _ Hx) as [Hex _].
  destruct (canonical_emin _ _ Hy) as [Hey _].
  cbn [SFsub]. apply SFeqb_zero_false. intros sz.
  pose proof (shl_align_fst mx ex (Z.min ex ey) ltac:(lia)) as Hax.
  pose proof (shl_align_fst my ey (Z.min ex ey) ltac:(lia)) as Hay.
  set (ax := Z.pos (shl_align mx ex (Z.min ex ey)).1) in *.
  set (ay := Z.pos (shl_align my ey (Z.min ex ey)).1) in *.
  assert (cond_Zopp sx ax - cond_Zopp sy ay ≠ 0) as HD.
  { intros HD.
    assert (sx = sy ∧ ax = ay) as [-> Ha].
    { unfold cond_Zopp in HD. destruct sx, sy; lia. }
    assert (ex = ey ∧ mx = my) as [-> ->].
    { destruct (Z.le_gt_cases ex ey) as [Hle|Hgt].
      - apply canonical_unique; try done.
        rewrite Z.min_l in Hax, Hay by done. rewrite Z.sub_diag in Hax. lia.
      - assert (ey = ex ∧ my = mx) as [-> ->]; [|done].
        apply canonical_unique; try done; try lia.
        rewrite Z.min_r in Hax, Hay by lia. rewrite Z.sub_diag in Hay. lia. }
    by rewrite SFeqb_refl_finite in Hne. }
  unfold binary_normalize.
  destruct (cond_Zopp sx ax - cond_Zopp sy ay) as [|d|d]; [done|..];
    apply binary_round_nonzero; lia.
Qed.

(** [x - y] is zero only if [x == y]: the division by [max_x - min_x] is
    guarded by the test [max_x == min_x]. *)
Lemma sub_nonzero (x y : float) :
  (x =? y)%float = false → (x - y =? 0)%float = false.
Proof.
  rewrite !FloatAxioms.eqb_spec, sub_spec.
  change (Prim2SF 0) with (S754_zero false).
  apply SFsub_nonzero; apply Prim2SF_valid.
Qed.

End binary64.

(** ** The entry point never fails on bounded inputs *)

Lemma is_ok_inv {A} (r : result A) : is_ok r = true → ∃ a, r = Ok a.
Proof. destruct r; [by eexists|discriminate]. Qed.

Lemma is_ok_bind {A B} (r : result A) (f : A → result B) :
  is_ok (r ≫= f) = true → ∃ a, r = Ok a ∧ is_ok (f a) = true.
Proof. destruct r; [by eexists|discriminate]. Qed.

(** *** Conversions and divisions *)

Lemma float_of_Z_ok (n : Z) : Z.abs n < 2 ^ 63 → ∃ f, float_of_Z n = Ok f.
Proof.
  intros Hn. unfold float_of_Z. cbv zeta.
  assert (2 ^ 63 < FLOAT_OVERFLOW) as Hlt by done.
  set (T := FLOAT_OVERFLOW) in *. set (B := 2 ^ 63) in *.
  rewrite (proj2 (Z.leb_gt T (Z.abs n))) by lia. by eexists.
Qed.

Lemma float_of_Z_nonzero (n : Z) :
  0 < n < 2 ^ 63 → ∃ f, float_of_Z n = Ok f ∧ (f =? 0)%float = false.
Proof.
  intros Hn. unfold float_of_Z. cbv zeta.
  assert (2 ^ 63 < FLOAT_OVERFLOW) as Hlt by done.
  pose proof (of_uint63_nonzero n Hn) as Hnz.
  rewrite (Z.abs_eq n) by lia.
  set (T := FLOAT_OVERFLOW) in *. set (B := 2 ^ 63) in *.
  rewrite (proj2 (Z.leb_gt T n)) by lia.
  rewrite (proj2 (Z.ltb_lt n B)) by lia.
  rewrite (proj2 (Z.ltb_ge n 0)) by lia.
  by eexists.
Qed.

Lemma py_fdiv_ok (a b : float) :
  (b =? 0)%float = false → py_fdiv a b = Ok (a / b)%float.
Proof. unfold py_fdiv. by intros ->. Qed.

(** *** The selection of irregular offsets always returns *)

Lemma repeat_positions_ok (count offset : Z) (positions indices : list Z) :
  py_len indices < count →
  Forall offset_index indices →
  ∃ res (returned : bool),
    repeat_positions count offset positions indices = Ok (res, returned) ∧
    Forall offset_index res ∧
    (if returned then py_len res = count
     else py_len res = py_len indices + py_len positions ∧ py_len res < count).
Proof.
  revert indices. induction positions as [|pos positions IH]; intros indices Hlt Hall.
  - exists indices, false. cbn [repeat_positions]. split; [done|]. split; [done|].
    unfold py_len in *. cbn [length]. lia.
  - cbn [repeat_positions]. rewrite py_mod_ok by done. rewrite bind_Ok.
    assert (Forall offset_index (indices ++ [(pos + offset) mod irregular_len])) as Hall'.
    { apply Forall_app. split; [done|]. apply Forall_singleton.
      unfold offset_index. apply Z.mod_pos_bound. by vm_compute. }
    assert (py_len (indices ++ [(pos + offset) mod irregular_len]) = py_len indices + 1)
      as Hlen by (rewrite py_len_app; unfold py_len; cbn [length]; lia).
    destruct (Z.eqb_spec (py_len (indices ++ [(pos + offset) mod irregular_len])) count)
      as [Heq|Hne].
    + eexists _, true. by repeat split.
    + assert (py_len (indices ++ [(pos + offset) mod irregular_len]) < count)
        as Hlt' by lia.
      destruct (IH _ Hlt' Hall') as (res & returned & -> & Hres & Hr).
      exists res, returned. split; [done|]. split; [done|].
      destruct returned; [done|].
      unfold py_len in *. cbn [length]. lia.
Qed.

Lemma repeat_cycles_ok (count : Z) (cycles indices : list Z) :
  py_len indices < count →
  count ≤ py_len indices + irregular_len * py_len cycles →
  Forall offset_index indices →
  ∃ res,
    repeat_cycles count cycles indices = Ok res ∧
    py_len res = count ∧ Forall offset_index res.
Proof.
  revert indices. induction cycles as [|cycle cycles IH]; intros indices Hlt Hcap Hall.
  - unfold py_len in Hcap at 2. cbn [length] in Hcap. lia.
  - cbn [repeat_cycles]. rewrite py_mod_ok by done. rewrite bind_Ok.
    destruct (repeat_positions_ok count ((cycle * 3) mod irregular_len)
                (py_range irregular_len) indices Hlt Hall)
      as (res & returned & -> & Hres & Hr).
    rewrite bind_Ok. destruct returned.
    + by exists res.
    + destruct Hr as [Hlen Hlt'].
      apply IH; [done| |done].
      assert (py_len (py_range irregular_len) = irregular_len) as Hrange by done.
      assert (py_len (cycle :: cycles) = py_len cycles + 1) as Hcons
        by (unfold py_len; cbn [length]; lia).
      rewrite Hrange in Hlen. rewrite Hcons in Hcap. lia.
Qed.

Lemma select_irregular_indices_small :
  forallb (λ count,
             match select_irregular_indices count with
             | Ok indices =>
                 (py_len indices =? count)
                 && forallb (λ k, (0 <=? k) && (k <? irregular_len)) indices
             | Raise _ => false
             end)
          (seqZ 0 13) = true.
Proof. by vm_compute. Qed.

(** For every count the selection returns [max(0, count)] offsets, each an
    index into the offset tables. *)
Lemma select_irregular_indices_ok (count : Z) :
  ∃ indices,
    select_irregular_indices count = Ok indices ∧
    py_len indices = Z.max 0 count ∧
    Forall offset_index indices.
Proof.
  destruct (Z.le_gt_cases count 0) as [Hneg|Hpos].
  { exists []. unfold select_irregular_indices.
    rewrite (proj2 (Z.leb_le count 0) Hneg). cbn [orb].
    split; [done|]. split; [|constructor]. unfold py_len. cbn [length]. lia. }
  destruct (Z.le_gt_cases count 12) as [Hsmall|Hlarge].
  - pose proof select_irregular_indices_small as Hall.
    rewrite forallb_forall in Hall.
    specialize (Hall count). 
    assert (In count (seqZ 0 13)) as Hin.
    { apply list_elem_of_In, elem_of_seqZ. lia. }
    specialize (Hall Hin).
    destruct (select_irregular_indices count) as [indices|]; [|discriminate].
    apply andb_prop in Hall as [Hlen Hrange].
    exists indices. split; [done|]. split; [apply Z.eqb_eq in Hlen; lia|].
    apply Forall_forall. intros k Hk.
    rewrite forallb_forall in Hrange. specialize (Hrange k).
    apply list_elem_of_In in Hk. specialize (Hrange Hk).
    apply andb_prop in Hrange as [?%Z.leb_le ?%Z.ltb_lt]. by split.
  - unfold select_irregular_indices.
    rewrite (proj2 (Z.leb_gt count 0)) by lia.
    change (irregular_len =? 0) with false. cbn [orb].
    rewrite (proj2 (Z.eqb_neq count 1)) by lia.
    change irregular_len with 12 at 1.
    rewrite (proj2 (Z.leb_gt count 12)) by lia.
    unfold py_floordiv. change (irregular_len =? 0) with false.
    cbv iota. change irregular_len with 12 at 1 2.
    assert (0 ≤ (count + 12 - 1) / 12) as Hq by (apply Z.div_pos; lia).
    assert (count ≤ 12 * ((count + 12 - 1) / 12)) as Hcap.
    { pose proof (Z.div_mod (count + 12 - 1) 12 ltac:(lia)).
      pose proof (Z.mod_pos_bound (count + 12 - 1) 12 ltac:(lia)). lia. }
    destruct (repeat_cycles_ok count (py_range ((count + 12 - 1) / 12)) [])
      as (res & Hres & Hlen & Hall).
    + unfold py_len. cbn [length]. lia.
    + unfold py_range, py_len. rewrite length_seqZ. cbn [length].
      change irregular_len with 12. lia.
    + constructor.
    + exists res. split; [by rewrite bind_Ok|]. split; [lia|done].
Qed.

(** *** The layout engine always returns *)

Lemma py_index_in_range {A} (l : list A) (i : Z) :
  0 ≤ i < py_len l → ∃ a, py_index l i = Ok a ∧ a ∈ l.
Proof.
  intros Hi. unfold py_len in Hi.
  destruct (lookup_lt_is_Some_2 l (Z.to_nat i)) as [a Ha]; [lia|].
  exists a. split; [apply py_index_ok; [lia|done]|].
  by eapply list_elem_of_lookup_2.
Qed.

Lemma list_comp_success {A B} (f : A → result B) (l : list A) :
  (∀ a, a ∈ l → ∃ b, f a = Ok b) → ∃ bs, list_comp f l = Ok bs.
Proof.
  induction l as [|a l IH]; intros Hf; [by eexists|].
  destruct (Hf a) as [b Hb]; [left|].
  destruct IH as [bs Hbs]; [intros a' Ha'; apply Hf; by right|].
  exists (b :: bs). cbn [list_comp]. by rewrite Hb, bind_Ok, Hbs.
Qed.

Lemma for_each_ok {A C S} (body : list C * S → A → result (list C * S))
    (P : A → Prop) (Q : C → Prop) :
  (∀ cols s a, P a → ∃ c s', body (cols, s) a = Ok (cols ++ [c], s') ∧ Q c) →
  ∀ l cols s,
    Forall P l →
    ∃ new s',
      for_each body l (cols, s) = Ok (cols ++ new, s') ∧
      Forall Q new ∧ length new = length l.
Proof.
  intros Hbody. induction l as [|a l IH]; intros cols s Hl.
  - exists [], s. cbn [for_each]. rewrite app_nil_r. by repeat split.
  - apply Forall_cons in Hl as [Ha Hl].
    destruct (Hbody cols s a Ha) as (c & s1 & Hc & Hq).
    destruct (IH (cols ++ [c]) s1 Hl) as (new & s' & Hnew & Hall & Hlen).
    exists (c :: new), s'. cbn [for_each]. rewrite Hc, bind_Ok, Hnew.
    rewrite <- app_assoc. split; [done|].
    split; [by constructor|]. cbn [length]. lia.
Qed.

Lemma offset_index_cases (P : Z → Prop) :
  Forall P (seqZ 0 12) → ∀ k, offset_index k → P k.
Proof.
  intros HP k Hk. rewrite Forall_forall in HP. apply HP, elem_of_seqZ.
  unfold offset_index in Hk. change irregular_len with 12 in Hk. lia.
Qed.

Ltac each_offset_index :=
  let l := eval vm_compute in (seqZ 0 12) in
  change (seqZ 0 12) with l; repeat apply Forall_cons_2; [..|apply Forall_nil_2].

Lemma span_width_of_ok (regular_count irregular_count : Z) :
  regular_count + irregular_count ≤ 2 ^ 62 →
  ∃ span_width, span_width_of regular_count irregular_count = Ok span_width.
Proof.
  intros Hn. unfold span_width_of. cbv zeta.
  destruct (float_of_Z_ok (Z.max (regular_count + irregular_count) 1 - 1))
    as [ft ->]; [lia|].
  by eexists.
Qed.

Lemma regular_x_ok (regular_count : Z) (span_width : float) (idx : Z) :
  regular_count ≤ 2 ^ 62 → 0 ≤ idx < 2 ^ 62 →
  ∃ x, regular_x regular_count span_width idx = Ok x.
Proof.
  intros Hn Hidx. unfold regular_x.
  destruct (regular_count =? 1).
  - rewrite py_fdiv_ok by done. by eexists.
  - destruct (float_of_Z_nonzero (Z.max (regular_count - 1) 1)) as (d & -> & Hd);
      [lia|].
    rewrite bind_Ok, py_fdiv_ok, bind_Ok by done.
    destruct (float_of_Z_ok idx) as [fi ->]; [lia|].
    by eexists.
Qed.

Lemma irregular_x_ok (span_width : float) (offset_idx : Z) :
  offset_index offset_idx → ∃ x, irregular_x span_width offset_idx = Ok x.
Proof.
  revert offset_idx. apply offset_index_cases. each_offset_index;
    eexists; vm_compute; reflexivity.
Qed.

Lemma offset_tables_ok (offset_idx : Z) :
  offset_index offset_idx →
  ∃ shift translate_scale opacity_scale,
    py_index phase_shifts offset_idx = Ok shift ∧
    py_index translate_scales offset_idx = Ok translate_scale ∧
    py_index opacity_scales offset_idx = Ok opacity_scale.
Proof.
  revert offset_idx. apply offset_index_cases. each_offset_index;
    eexists _, _, _; repeat split; vm_compute; reflexivity.
Qed.

Lemma extended_cycle_all_glyphs (seed : Z) (g : glyph) :
  g ∈ extended_cycle seed →
  g ∈ [K2_GLYPH; KTWO_GLYPH; ASSISTANT_GLYPH] ++ extra_glyph_cycle.
Proof.
  rewrite extended_cycle_prefix. unfold signature_prefix.
  rewrite !elem_of_app, !elem_of_cons.
  repeat case_decide; rewrite ?elem_of_app, ?elem_of_cons, ?elem_of_nil; tauto.
Qed.

Lemma generated_glyphs_all_glyphs (seed : Z) (template : column) (g : glyph) :
  template ∈ base_columns →
  g ∈ col_glyphs template ++ extended_cycle seed → g ∈ all_glyphs.
Proof.
  intros Ht Hg. unfold all_glyphs. apply elem_of_app in Hg as [Hg|Hg].
  - apply elem_of_app. left. apply list_elem_of_In, in_concat.
    exists (col_glyphs template).
    split; apply list_elem_of_In; [by apply list_elem_of_fmap_2|done].
  - apply elem_of_app. right. by eapply extended_cycle_all_glyphs.
Qed.

Section layout_returns.
Context `{Random G}.

Lemma pick_glyph_target_ok (min_gps max_gps : Z) (rng : G) :
  min_gps ≤ max_gps →
  ∃ target_count rng',
    pick_glyph_target min_gps max_gps rng = Ok (target_count, rng') ∧
    min_gps ≤ target_count ≤ max_gps.
Proof.
  intros Hle. unfold pick_glyph_target.
  destruct (min_gps =? max_gps); [exists min_gps, rng; split; [done|lia]|].
  unfold py_randint. rewrite (proj2 (Z.ltb_ge max_gps min_gps)) by lia.
  pose proof (random_randint_range min_gps max_gps rng Hle) as Hr.
  destruct (random_randint min_gps max_gps rng) as [v rng'].
  by exists v, rng'.
Qed.

(** A template with glyphs drawn for it is a well-formed column. *)
Lemma drawn_column_wf (min_gps max_gps seed : Z) (template c : column) (rng : G) :
  min_gps ≤ max_gps →
  template ∈ base_columns →
  col_glyphs c = col_glyphs template →
  col_translate_values c = col_translate_values template →
  col_opacity_values c = col_opacity_values template →
  ∃ target_count rng' glyphs,
    pick_glyph_target min_gps max_gps rng = Ok (target_count, rng') ∧
    generate_glyph_sequence seed (col_glyphs c) target_count = Ok glyphs ∧
    column_wf min_gps max_gps (set_glyphs c glyphs).
Proof.
  intros Hle Ht Hg Htv Hov.
  destruct (pick_glyph_target_ok min_gps max_gps rng Hle)
    as (target_count & rng' & Hpick & Hrange).
  destruct (generate_glyph_sequence_total seed (col_glyphs c) target_count)
    as (glyphs & Hgen & Hlen & Hall).
  exists target_count, rng', glyphs. split; [done|]. split; [done|].
  split; [by exists template|]. cbn [set_glyphs col_glyphs].
  split; [|lia].
  eapply Forall_impl; [exact Hall|]. intros g Hin.
  rewrite Hg in Hin. by eapply generated_glyphs_all_glyphs.
Qed.

Lemma regular_column_ok (min_gps max_gps regular_count : Z)
    (span_width : float) cols (rng : G) idx :
  min_gps ≤ max_gps → regular_count ≤ 2 ^ 62 → 0 ≤ idx < 2 ^ 62 →
  ∃ c rng',
    regular_column min_gps max_gps regular_count span_width (cols, rng) idx
    = Ok (cols ++ [c], rng') ∧
    column_wf min_gps max_gps c.
Proof.
  intros Hle Hn Hidx. unfold regular_column.
  rewrite py_mod_ok by done. rewrite bind_Ok.
  destruct (py_index_in_range base_columns (idx mod base_len))
    as (template & -> & Ht); [by apply Z.mod_pos_bound|].
  rewrite bind_Ok.
  destruct (regular_x_ok regular_count span_width idx Hn Hidx) as [x ->].
  rewrite bind_Ok.
  destruct (drawn_column_wf min_gps max_gps idx template (set_x template x) rng)
    as (target_count & rng' & glyphs & -> & Hgen & Hwf); [done..|].
  rewrite bind_Ok. cbv zeta. rewrite Hgen, bind_Ok.
  by eexists _, _.
Qed.

Lemma irregular_column_ok (min_gps max_gps regular_count : Z)
    (span_width : float) cols (rng : G) idx offset_idx :
  min_gps ≤ max_gps → offset_index offset_idx →
  ∃ c rng',
    irregular_column min_gps max_gps regular_count span_width (cols, rng)
                     (idx, offset_idx)
    = Ok (cols ++ [c], rng') ∧
    column_wf min_gps max_gps c.
Proof.
  intros Hle Hoff. unfold irregular_column.
  rewrite py_mod_ok by done. rewrite bind_Ok.
  destruct (py_index_in_range base_columns (idx mod base_len))
    as (template & -> & Ht); [by apply Z.mod_pos_bound|].
  rewrite bind_Ok.
  destruct (irregular_x_ok span_width offset_idx Hoff) as [x ->].
  rewrite bind_Ok.
  destruct (offset_tables_ok offset_idx Hoff)
    as (shift & translate_scale & opacity_scale & -> & -> & ->).
  rewrite !bind_Ok. cbv zeta.
  match goal with
  | |- context [set_timing ?c ?a ?b ?d ?e] =>
      destruct (drawn_column_wf min_gps max_gps (idx + regular_count) template
                  (set_timing c a b d e) rng)
        as (target_count & rng' & glyphs & -> & Hgen & Hwf); [done..|]
  end.
  rewrite bind_Ok. cbv zeta. rewrite Hgen, bind_Ok.
  by eexists _, _.
Qed.

Lemma place_columns_ok (min_gps max_gps regular_count irregular_count : Z) :
  min_gps ≤ max_gps → 0 ≤ regular_count → 0 ≤ irregular_count →
  regular_count + irregular_count ≤ 2 ^ 62 →
  ∃ columns span_width (rng : G),
    place_columns min_gps max_gps regular_count irregular_count
    = Ok (columns, span_width, rng) ∧
    Forall (column_wf min_gps max_gps) columns ∧
    py_len columns = regular_count + irregular_count.
Proof.
  intros Hle Hreg Hirr Hn. unfold place_columns. cbv zeta.
  destruct (span_width_of_ok regular_count irregular_count Hn) as [span_width ->].
  rewrite bind_Ok.
  destruct (for_each_ok
              (regular_column min_gps max_gps regular_count span_width)
              (λ idx, 0 ≤ idx < 2 ^ 62) (column_wf min_gps max_gps)
              ltac:(intros; apply regular_column_ok; [done|lia|done])
              (py_range (Z.max 0 regular_count)) [] (random_seed 12648430))
    as (regular & rng1 & -> & Hregular & Hlen1).
  { apply Forall_forall. intros idx Hidx%elem_of_seqZ. lia. }
  rewrite bind_Ok.
  destruct (select_irregular_indices_ok (Z.max 0 irregular_count))
    as (indices & -> & Hlen & Hindices).
  rewrite bind_Ok.
  destruct (for_each_ok
              (irregular_column min_gps max_gps regular_count span_width)
              (λ entry : Z * Z, offset_index entry.2) (column_wf min_gps max_gps)
              ltac:(intros cols s [idx offset_idx] Hentry;
                    by apply irregular_column_ok)
              (py_enumerate 0 indices) ([] ++ regular) rng1)
    as (irregular & rng2 & -> & Hirregular & Hlen2).
  { apply Forall_forall. intros [idx offset_idx] Hentry.
    rewrite Forall_forall in Hindices. apply Hindices.
    unfold py_enumerate in Hentry. by apply elem_of_zip_r in Hentry. }
  rewrite bind_Ok. eexists _, _, _. split; [done|].
  split; [by apply Forall_app|].
  rewrite py_len_app. unfold py_len in *. cbn [app].
  rewrite Hlen1, Hlen2. unfold py_range, py_enumerate.
  rewrite length_zip_with, !length_seqZ. unfold py_len. lia.
Qed.

Lemma normalized_positions_ok (span_width : float) (xs : list float) :
  xs ≠ [] → ∃ positions, normalized_positions span_width xs = Ok positions.
Proof.
  intros Hne. unfold normalized_positions.
  destruct xs as [|x xs]; [done|].
  cbn [py_min_list py_max_list]. rewrite !bind_Ok.
  destruct (_ =? _)%float eqn:E.
  - apply list_comp_success. intros _ _. rewrite py_fdiv_ok by done. by eexists.
  - rewrite py_fdiv_ok by by apply sub_nonzero. rewrite bind_Ok. by eexists.
Qed.

Lemma renormalize_ok (min_gps max_gps : Z) (span_width : float)
    (placed : list column) :
  Forall (column_wf min_gps max_gps) placed →
  ∃ columns canvas_width,
    renormalize span_width placed = Ok (columns, canvas_width) ∧
    Forall (column_wf min_gps max_gps) columns ∧
    length columns = length placed.
Proof.
  intros Hwf.
  assert (∃ r, renormalize span_width placed = Ok r) as [[columns w] Hr].
  { unfold renormalize. destruct placed as [|c placed']; [by eexists|].
    destruct (normalized_positions_ok span_width (col_x <$> c :: placed'))
      as [positions ->]; [done|].
    rewrite bind_Ok. by eexists. }
  exists columns, w. split; [done|].
  pose proof (renormalize_inv _ _ _ _ Hr) as (Hlen & _ & Hne).
  split; [|done].
  apply Forall_lookup. intros i c' Hc'.
  destruct (lookup_lt_is_Some_2 placed i) as [c Hc].
  { rewrite <- Hlen. by eapply lookup_lt_Some. }
  destruct Hne as (_ & min_x & max_x & _ & _ & _ & _ & Hcols).
  { intros ->. by rewrite lookup_nil in Hc. }
  destruct (Hcols i c Hc) as (new_x & Hnew & _).
  assert (c' = set_x c (new_x + EDGE_MARGIN)) as -> by congruence.
  rewrite Forall_lookup in Hwf. by apply (Hwf i c).
Qed.

Lemma build_columns_ok (min_gps max_gps regular_count irregular_count : Z) :
  min_gps ≤ max_gps → 0 ≤ regular_count → 0 ≤ irregular_count →
  regular_count + irregular_count ≤ 2 ^ 62 →
  ∃ columns canvas_width,
    build_columns min_gps max_gps regular_count irregular_count
    = Ok (columns, canvas_width) ∧
    Forall (column_wf min_gps max_gps) columns ∧
    py_len columns = regular_count + irregular_count.
Proof.
  intros Hle Hreg Hirr Hn. unfold build_columns.
  destruct (place_columns_ok min_gps max_gps regular_count irregular_count
              Hle Hreg Hirr Hn)
    as (placed & span_width & rng & -> & Hwf & Hlen).
  rewrite bind_Ok.
  destruct (renormalize_ok min_gps max_gps span_width placed Hwf)
    as (columns & canvas_width & Hr & Hwf' & Hlen').
  exists columns, canvas_width. split; [done|]. split; [done|].
  unfold py_len in *. lia.
Qed.

End layout_returns.

(** *** The animation synthesizer always returns *)

Lemma base_columns_strings_ok : forallb template_strings_ok base_columns = true.
Proof. by vm_compute. Qed.

Lemma patterns_ok : forallb pattern_ok patterns = true.
Proof. by vm_compute. Qed.

Lemma all_glyphs_sizes_ok :
  forallb (λ g : glyph, is_ok (fmt_num_int g.2)) all_glyphs = true.
Proof. by vm_compute. Qed.

Lemma forallb_elem_of {A} (f : A → bool) (l : list A) (a : A) :
  forallb f l = true → a ∈ l → f a = true.
Proof.
  intros Hall Ha. rewrite forallb_forall in Hall. by apply Hall, list_elem_of_In.
Qed.

Lemma flag_ok (nice_flags : gmap string bool) (name : string) :
  flags_complete nice_flags → name ∈ feature_names →
  ∃ b, flag nice_flags name = Ok b.
Proof.
  intros Hflags Hname. destruct (Hflags name Hname) as [b Hb].
  exists b. unfold flag. by rewrite Hb.
Qed.

Ltac feature_name :=
  repeat first [apply list_elem_of_here | apply list_elem_of_further].

Lemma resolve_nice_flags_complete (requested : Z) :
  flags_complete (resolve_nice_flags requested).2.
Proof.
  rewrite resolve_nice_flags_clamped.
  destruct (resolve_nice_flags_at _ (clamped_level_cases requested))
    as (_ & Hflags & _).
  intros name [i Hi]%list_elem_of_lookup.
  rewrite (Hflags i name Hi). by eexists.
Qed.

Lemma column_phase_of_ok (col_idx : Z) (col template : column) :
  0 ≤ col_idx < 2 ^ 62 →
  template ∈ base_columns →
  col_translate_values col = col_translate_values template →
  ∃ ph, column_phase_of col_idx col = Ok ph.
Proof.
  intros Hidx Ht Htv.
  pose proof (forallb_elem_of _ _ _ base_columns_strings_ok Ht) as Hok.
  apply andb_prop in Hok as [Hok _]. rewrite <- Htv in Hok.
  apply is_ok_bind in Hok as (translate_pairs & Hpairs & Hok).
  apply is_ok_bind in Hok as (first_pair & Hfirst & Hok).
  apply is_ok_bind in Hok as (start_y & Hstart & Hok).
  apply is_ok_bind in Hok as (last_pair & Hlast & Hok).
  apply is_ok_inv in Hok as (end_y & Hend).
  unfold column_phase_of.
  rewrite Hpairs, bind_Ok, Hfirst, bind_Ok, Hstart, bind_Ok, Hlast, bind_Ok,
    Hend, bind_Ok.
  change COLUMN_WAVE_GROUP with 6.
  pose proof (Z.mod_pos_bound col_idx 6 ltac:(lia)).
  pose proof (Z.div_pos col_idx 6 ltac:(lia) ltac:(lia)).
  pose proof (Z.div_le_upper_bound col_idx 6 col_idx ltac:(lia) ltac:(lia)).
  destruct (float_of_Z_ok (col_idx mod 6)) as [group ->]; [lia|].
  destruct (float_of_Z_ok (col_idx / 6)) as [wave ->]; [lia|].
  destruct (float_of_Z_ok col_idx) as [fcol ->]; [lia|].
  by eexists.
Qed.

Lemma glyph_timing_of_ok (col_idx : Z) (col template : column)
    (ph : column_phase) (glyph_idx : Z) (g : glyph) :
  0 ≤ col_idx < 2 ^ 62 → 0 ≤ glyph_idx < 2 ^ 56 →
  template ∈ base_columns →
  col_opacity_values col = col_opacity_values template →
  g ∈ all_glyphs →
  ∃ t, glyph_timing_of col_idx col ph glyph_idx g.2 = Ok t ∧
       base_y t = 20 + glyph_idx * 40.
Proof.
  intros Hcol Hglyph Ht Hov Hg.
  pose proof (forallb_elem_of _ _ _ base_columns_strings_ok Ht) as Hstr.
  apply andb_prop in Hstr as [_ Hpeak]. rewrite <- Hov in Hpeak.
  apply is_ok_bind in Hpeak as (peak_text & Hpeak_text & Hpeak).
  apply is_ok_inv in Hpeak as (peak & Hpeak).
  unfold glyph_timing_of. cbv zeta.
  assert (py_len patterns ≠ 0) as Hlen by done.
  rewrite (py_mod_ok _ _ Hlen), bind_Ok.
  pose proof (Z.mod_pos_bound (glyph_idx + col_idx) (py_len patterns)
                ltac:(by vm_compute)) as Hpidx.
  destruct (py_index_in_range patterns _ Hpidx) as (p & -> & Hp).
  rewrite bind_Ok.
  pose proof (forallb_elem_of _ _ _ patterns_ok Hp) as Hpat.
  apply andb_prop in Hpat as [Hmean Hsizes].
  pose proof (forallb_elem_of _ _ _ Hsizes Hg) as Hsize. cbv beta in Hsize.
  apply andb_prop in Hsize as [Hhigh Hlow].
  apply is_ok_inv in Hhigh as (scale_high & Hhigh).
  apply is_ok_inv in Hlow as (scale_low & Hlow).
  apply is_ok_bind in Hmean as (values & Hvalues & Hmean).
  apply is_ok_bind in Hmean as (count & Hcount & Hmean).
  apply is_ok_inv in Hmean as (mean & Hmean).
  set (pattern_idx := (glyph_idx + col_idx) mod py_len patterns) in *.
  pose proof (Z.mod_pos_bound glyph_idx 5 ltac:(lia)).
  pose proof (Z.mod_pos_bound pattern_idx 3 ltac:(lia)).
  pose proof (Z.mod_pos_bound (glyph_idx + 2 * col_idx) 4 ltac:(lia)).
  pose proof (Z.mod_pos_bound glyph_idx 3 ltac:(lia)).
  destruct (float_of_Z_ok col_idx) as [fcol ->]; [lia|].
  destruct (float_of_Z_ok glyph_idx) as [fglyph ->]; [lia|].
  destruct (float_of_Z_ok (20 + glyph_idx * 40)) as [fbase ->]; [lia|].
  destruct (float_of_Z_ok (glyph_idx mod 5)) as [g5 ->]; [lia|].
  destruct (float_of_Z_ok (pattern_idx mod 3)) as [p3 ->]; [lia|].
  destruct (float_of_Z_ok ((glyph_idx + 2 * col_idx) mod 4)) as [o4 ->]; [lia|].
  destruct (float_of_Z_ok (glyph_idx mod 3 - 1)) as [g3 ->]; [lia|].
  rewrite !bind_Ok, Hhigh, bind_Ok, Hlow, bind_Ok, Hpeak_text, bind_Ok, Hpeak,
    !bind_Ok, Hvalues, bind_Ok, Hcount, bind_Ok, Hmean, bind_Ok.
  by eexists.
Qed.

Lemma glyph_text_ok (nice_flags : gmap string bool) (t : glyph_timing)
    (glyph_idx : Z) (g : glyph) :
  flags_complete nice_flags →
  0 ≤ glyph_idx < 2 ^ 56 → base_y t = 20 + glyph_idx * 40 →
  g ∈ all_glyphs →
  ∃ e, glyph_text nice_flags t g.1 g.2 = Ok e.
Proof.
  intros Hflags Hglyph Hy Hg.
  destruct (flag_ok nice_flags "disable_per_glyph_opacity" Hflags)
    as [no_opacity Hopacity]; [feature_name|].
  destruct (flag_ok nice_flags "disable_fill_opacity_pulse" Hflags)
    as [no_fill Hfill]; [feature_name|].
  destruct (flag_ok nice_flags "disable_font_size_animation" Hflags)
    as [no_size Hsize]; [feature_name|].
  destruct (flag_ok nice_flags "disable_micro_jitter" Hflags)
    as [no_jitter Hjitter]; [feature_name|].
  pose proof (forallb_elem_of _ _ _ all_glyphs_sizes_ok Hg) as Hfont.
  apply is_ok_inv in Hfont as (font_size & Hfont).
  unfold fmt_num_int in Hfont. apply bind_inv in Hfont as (fsize & Hfsize & _).
  unfold glyph_text, text_attrs_of, fmt_num_int. rewrite Hy.
  destruct (float_of_Z_ok (20 + glyph_idx * 40)) as [fy ->]; [lia|].
  rewrite !bind_Ok, Hfsize, !bind_Ok, Hopacity, bind_Ok, Hfill, !bind_Ok,
    Hsize, bind_Ok, Hjitter, bind_Ok.
  by eexists.
Qed.

Lemma rain_column_ok (nice_flags : gmap string bool) (min_gps max_gps : Z)
    (col_idx : Z) (col : column) :
  flags_complete nice_flags →
  max_gps ≤ 2 ^ 56 → 0 ≤ col_idx < 2 ^ 62 →
  column_wf min_gps max_gps col →
  ∃ e, rain_column nice_flags (col_idx, col) = Ok e.
Proof.
  intros Hflags Hmax Hidx ((template & Ht & Htv & Hov) & Hglyphs & Hlen).
  destruct (flag_ok nice_flags "disable_trail_filter" Hflags)
    as [no_trail Htrail]; [feature_name|].
  destruct (column_phase_of_ok col_idx col template Hidx Ht Htv) as [ph Hph].
  unfold rain_column. rewrite Htrail, bind_Ok. cbv zeta. rewrite Hph, bind_Ok.
  destruct (list_comp_success (rain_glyph nice_flags col_idx col ph)
              (py_enumerate 0 (col_glyphs col))) as [texts ->]; [|by eexists].
  intros [glyph_idx g] Hentry. unfold py_enumerate in Hentry.
  pose proof (elem_of_zip_l _ _ _ _ Hentry) as Hi%elem_of_seqZ.
  pose proof (elem_of_zip_r _ _ _ _ Hentry) as Hin.
  rewrite Forall_forall in Hglyphs. specialize (Hglyphs g Hin).
  assert (0 ≤ glyph_idx < 2 ^ 56) as Hglyph by lia.
  destruct (glyph_timing_of_ok col_idx col template ph glyph_idx g
              Hidx Hglyph Ht Hov Hglyphs) as (t & Htiming & Hy).
  destruct (glyph_text_ok nice_flags t glyph_idx g Hflags Hglyph Hy Hglyphs)
    as [e He].
  exists e. unfold rain_glyph. destruct g as [char size].
  cbn [fst snd] in Htiming, He. by rewrite Htiming, bind_Ok.
Qed.

Lemma build_matrix_rain_ok (nice_flags : gmap string bool) (min_gps max_gps : Z)
    (columns : list column) :
  flags_complete nice_flags →
  max_gps ≤ 2 ^ 56 → py_len columns ≤ 2 ^ 62 →
  Forall (column_wf min_gps max_gps) columns →
  ∃ rain, build_matrix_rain columns nice_flags = Ok rain.
Proof.
  intros Hflags Hmax Hlen Hwf. unfold build_matrix_rain.
  destruct (list_comp_success (rain_column nice_flags) (py_enumerate 0 columns))
    as [groups ->]; [|by eexists].
  intros [col_idx col] Hentry. unfold py_enumerate in Hentry.
  pose proof (elem_of_zip_l _ _ _ _ Hentry) as Hi%elem_of_seqZ.
  pose proof (elem_of_zip_r _ _ _ _ Hentry) as Hin.
  rewrite Forall_forall in Hwf.
  apply (rain_column_ok nice_flags min_gps max_gps); [done|done|lia|by apply Hwf].
Qed.

(** *** The entry point *)



